(** * qfpayslim: the signer, the path extractor and the response envelope

    A shallow embedding of [qfpay.go] and the properties of its
    specification.

    - Go strings and byte slices are byte sequences: [string], a list
      of 8-bit [ascii].
    - [url.Values] and [http.Header] are finite maps from a key to a
      list of values.  Go does not fix the order in which [range]
      visits a map, so [GenerateSign] takes the order of one run as an
      argument.
    - The packages the file calls (crypto/md5, sort, strings, net/url,
      encoding/json, encoding/base64, reflect) are modelled by
      executable definitions of what they compute.
    - The types a destination may have are [string], [bool], [uint8],
      slices, maps with string keys and structs of exported fields.
      An [interface{}] argument is nil, a value of such a type, or a
      pointer to a variable of such a type.
    - The variables that pointers refer to live in a memory, a finite
      map from addresses to values.  A call is a function of the state
      (the memory and the list of calls made outside the package so
      far) that returns a result or panics.
    - The network, the dumps of httputil and the JSON encoder are
      functions of an environment record, whose results nothing
      constrains. *)

From Stdlib Require Import ZArith NArith Ascii String List.
From stdpp Require Import gmap strings list fin_maps sorting.

Local Open Scope string_scope.
Local Set Warnings "-register-all".

(** ** Bytes and strings *)

Definition byte_of (c : ascii) : Z := Z.of_N (N_of_ascii c).
Definition ascii_of (b : Z) : ascii := ascii_of_N (Z.to_N (b mod 256)).

Definition bytes_of (s : string) : list Z := byte_of <$> list_ascii_of_string s.

(** [strings.Join(elems, sep)] *)
Fixpoint Join (elems : list string) (sep : string) : string :=
  match elems with
  | [] => ""
  | [e] => e
  | e :: rest => e +:+ sep +:+ Join rest sep
  end.

(** [strings.Split(s, sep)] for a one-byte separator: the fields between
    the separators, in order; never the empty list. *)
Fixpoint Split_go (cur : string) (s : string) (sep : ascii) : list string :=
  match s with
  | "" => [String.rev cur]
  | String c s' =>
      if Ascii.eqb c sep then String.rev cur :: Split_go "" s' sep
      else Split_go (String c cur) s' sep
  end.
Definition Split (s : string) (sep : ascii) : list string := Split_go "" s sep.

(** [sort.Strings]: increasing order for Go's [<] on strings, which
    compares byte by byte.  [sort_Strings_unique] below shows that the
    result does not depend on the sorting algorithm. *)
Definition sort_Strings (a : list string) : list string :=
  merge_sort String.le a.

(** ** crypto/md5 (RFC 1321), on 32-bit words held in [Z] *)

Module MD5.

Definition w32 (x : Z) : Z := x mod 2^32.
Definition add32 (x y : Z) : Z := w32 (x + y).
Definition not32 (x : Z) : Z := Z.lxor x 4294967295.
Definition rotl32 (x c : Z) : Z :=
  w32 (Z.lor (Z.shiftl x c) (Z.shiftr x (32 - c))).

Definition K : list Z :=
  [ 3614090360; 3905402710; 606105819; 3250441966;
    4118548399; 1200080426; 2821735955; 4249261313;
    1770035416; 2336552879; 4294925233; 2304563134;
    1804603682; 4254626195; 2792965006; 1236535329;
    4129170786; 3225465664; 643717713; 3921069994;
    3593408605; 38016083; 3634488961; 3889429448;
    568446438; 3275163606; 4107603335; 1163531501;
    2850285829; 4243563512; 1735328473; 2368359562;
    4294588738; 2272392833; 1839030562; 4259657740;
    2763975236; 1272893353; 4139469664; 3200236656;
    681279174; 3936430074; 3572445317; 76029189;
    3654602809; 3873151461; 530742520; 3299628645;
    4096336452; 1126891415; 2878612391; 4237533241;
    1700485571; 2399980690; 4293915773; 2240044497;
    1873313359; 4264355552; 2734768916; 1309151649;
    4149444226; 3174756917; 718787259; 3951481745 ]%Z.

Definition shifts : list Z :=
  [ 7; 12; 17; 22; 7; 12; 17; 22; 7; 12; 17; 22; 7; 12; 17; 22;
    5; 9; 14; 20; 5; 9; 14; 20; 5; 9; 14; 20; 5; 9; 14; 20;
    4; 11; 16; 23; 4; 11; 16; 23; 4; 11; 16; 23; 4; 11; 16; 23;
    6; 10; 15; 21; 6; 10; 15; 21; 6; 10; 15; 21; 6; 10; 15; 21 ]%Z.

Record state := St { sa : Z; sb : Z; sc : Z; sd : Z }.

Definition init : state :=
  St 1732584193 4023233417 2562383102 271733878.

(** little-endian 32-bit words of a byte list *)
Fixpoint words (bs : list Z) : list Z :=
  match bs with
  | b0 :: b1 :: b2 :: b3 :: rest =>
      (b0 + 256 * b1 + 65536 * b2 + 16777216 * b3)%Z :: words rest
  | _ => []
  end.

Definition le_bytes (n : nat) (x : Z) : list Z :=
  (fun i => Z.shiftr x (8 * Z.of_nat i) mod 256)%Z <$> seq 0 n.

(** message, 0x80, zero fill up to 56 mod 64, bit length on 64 bits *)
Definition pad (msg : list Z) : list Z :=
  let len := Z.of_nat (length msg) in
  let zeros := Z.to_nat ((55 - len) mod 64) in
  msg ++ [128%Z] ++ replicate zeros 0%Z ++ le_bytes 8 ((8 * len) mod 2^64)%Z.

Definition round (m : list Z) (st : state) (i : nat) : state :=
  let '(St a b c d) := st in
  let zi := Z.of_nat i in
  let '(f, g) :=
    if (zi <? 16)%Z then
      (Z.lor (Z.land b c) (Z.land (not32 b) d), zi)
    else if (zi <? 32)%Z then
      (Z.lor (Z.land d b) (Z.land (not32 d) c), (5 * zi + 1) mod 16)%Z
    else if (zi <? 48)%Z then
      (Z.lxor (Z.lxor b c) d, (3 * zi + 5) mod 16)%Z
    else
      (Z.lxor c (Z.lor b (not32 d)), (7 * zi) mod 16)%Z in
  let f' := add32 (add32 (add32 f a) (K !!! i)) (m !!! Z.to_nat g) in
  St d (add32 b (rotl32 f' (shifts !!! i))) b c.

Definition block (st : state) (m : list Z) : state :=
  let '(St a b c d) := foldl (round m) st (seq 0 64) in
  St (add32 (sa st) a) (add32 (sb st) b) (add32 (sc st) c) (add32 (sd st) d).

Fixpoint chunks (fuel : nat) (ws : list Z) : list (list Z) :=
  match fuel, ws with
  | _, [] => []
  | O, _ => []
  | S fuel', _ => take 16 ws :: chunks fuel' (drop 16 ws)
  end.

(** [md5.Sum]: the 16 digest bytes *)
Definition Sum (data : string) : list Z :=
  let ws := words (pad (bytes_of data)) in
  let '(St a b c d) := foldl block init (chunks (length ws) ws) in
  le_bytes 4 a ++ le_bytes 4 b ++ le_bytes 4 c ++ le_bytes 4 d.

End MD5.

(** [fmt.Sprintf("%X", digest)]: two upper-case hexadecimal digits per byte *)
Definition hex_digit (n : Z) : ascii :=
  ascii_of (if (n <? 10)%Z then 48 + n else 55 + n)%Z.

Fixpoint Sprintf_X (bs : list Z) : string :=
  match bs with
  | [] => ""
  | b :: rest =>
      String (hex_digit (b / 16)) (String (hex_digit (b mod 16)) (Sprintf_X rest))
  end.

(** ** url.Values and the client *)

Abbreviation Values := (gmap string (list string)).

(** [Values.Set]: [v[key] = []string{value}] *)
Definition Values_Set (v : Values) (key value : string) : Values :=
  <[key := [value]]> v.

(** [Values.Get]: the first value of the key, or the empty string *)
Definition Values_Get (v : Values) (key : string) : string :=
  match v !! key with
  | Some (x :: _) => x
  | _ => ""
  end.

Record Client := mkClient {
  Prefix : string;
  AppCode : string;
  Key : string;
  Debug : bool
}.

(** Go leaves the order of [for k := range payload] unspecified: the
    loop visits every key once, in an order chosen by the runtime.  The
    order of one run is the parameter [order]. *)
Definition range_order (payload : Values) (order : list string) : Prop :=
  order ≡ₚ (map_to_list payload).*1.

(** [Client.GenerateSign] *)
Definition GenerateSign (c : Client) (payload : Values) (order : list string)
  : string :=
  let parts := (fun k => k +:+ "=" +:+ Values_Get payload k) <$> order in
  let parts := sort_Strings parts in
  let joined := Join parts "&" +:+ Key c in
  Sprintf_X (MD5.Sum joined).

(** ** The signer as the specification words it *)

(** A payload in the specification's sense: a mapping from string keys
    to string values.  As [url.Values] every key holds the one-element
    list that [Values.Set] stores. *)
Definition Values_of (p : gmap string string) : Values := (fun v => [v]) <$> p.

(** [key=value] for each entry, sorted, joined with [&], the secret key
    appended, MD5, upper-case hexadecimal. *)
Definition Sign_spec (p : gmap string string) (secretKey : string) : string :=
  let entries := (fun e : string * string => e.1 +:+ "=" +:+ e.2) <$> map_to_list p in
  Sprintf_X (MD5.Sum (Join (sort_Strings entries) "&" +:+ secretKey)).

(** A payload filled by successive [payload.Set(k, v)] calls, first
    entry first. *)
Definition Values_build (entries : list (string * string)) : Values :=
  foldl (fun m e => Values_Set m e.1 e.2) ∅ entries.


(** ** Characters *)

Definition dquote : ascii := ascii_of 34.
Definition backslash : ascii := ascii_of 92.

Definition in_range (lo hi : Z) (c : ascii) : bool :=
  (lo <=? byte_of c)%Z && (byte_of c <=? hi)%Z.

Definition is_digit (c : ascii) : bool := in_range 48 57 c.

(** A byte-string literal in which ['] stands for the double quote, to
    write JSON documents down. *)
Fixpoint bytes_lit (s : string) : string :=
  match s with
  | EmptyString => EmptyString
  | String c s' => String (if Ascii.eqb c "'" then dquote else c) (bytes_lit s')
  end.

Definition hex_val (c : ascii) : option Z :=
  if is_digit c then Some (byte_of c - 48)%Z
  else if in_range 97 102 c then Some (byte_of c - 87)%Z
  else if in_range 65 70 c then Some (byte_of c - 55)%Z
  else None.

(** ** unicode/utf8 and unicode/utf16, as encoding/json uses them *)

Module UTF8.

Definition RuneError : Z := 65533.

(** [utf8.EncodeRune] *)
Definition EncodeRune (r : Z) : list ascii :=
  let r := if ((r <? 0) || (1114111 <? r) || ((55296 <=? r) && (r <=? 57343)))%Z
           then RuneError else r in
  if (r <? 128)%Z then [ascii_of r]
  else if (r <? 2048)%Z then
    [ascii_of (192 + r / 64); ascii_of (128 + r mod 64)]
  else if (r <? 65536)%Z then
    [ascii_of (224 + r / 4096); ascii_of (128 + (r / 64) mod 64);
     ascii_of (128 + r mod 64)]
  else
    [ascii_of (240 + r / 262144); ascii_of (128 + (r / 4096) mod 64);
     ascii_of (128 + (r / 64) mod 64); ascii_of (128 + r mod 64)].

(** For a lead byte: the length of the sequence and the range allowed
    for its second byte (the table of [utf8.DecodeRune]). *)
Definition lead (b : Z) : option (nat * Z * Z) :=
  if ((194 <=? b) && (b <=? 223))%Z then Some (2%nat, 128%Z, 191%Z)
  else if (b =? 224)%Z then Some (3%nat, 160%Z, 191%Z)
  else if (b =? 237)%Z then Some (3%nat, 128%Z, 159%Z)
  else if ((225 <=? b) && (b <=? 239))%Z then Some (3%nat, 128%Z, 191%Z)
  else if (b =? 240)%Z then Some (4%nat, 144%Z, 191%Z)
  else if ((241 <=? b) && (b <=? 243))%Z then Some (4%nat, 128%Z, 191%Z)
  else if (b =? 244)%Z then Some (4%nat, 128%Z, 143%Z)
  else None.

Definition cont (c : ascii) : bool := in_range 128 191 c.

(** The number of bytes of the well-formed multi-byte sequence at the
    head of [s]; [0] when there is none ([DecodeRune] then yields
    [RuneError] and consumes one byte). *)
Definition seq_len (s : list ascii) : nat :=
  match s with
  | [] => 0
  | c0 :: r =>
      match lead (byte_of c0) with
      | None => 0
      | Some (n, lo, hi) =>
          match n, r with
          | 2, c1 :: _ => if in_range lo hi c1 then 2 else 0
          | 3, c1 :: c2 :: _ => if in_range lo hi c1 && cont c2 then 3 else 0
          | 4, c1 :: c2 :: c3 :: _ =>
              if in_range lo hi c1 && cont c2 && cont c3 then 4 else 0
          | _, _ => 0
          end
      end
  end.

(** [utf16.IsSurrogate] and [utf16.DecodeRune] *)
Definition IsSurrogate (r : Z) : bool := ((55296 <=? r) && (r <? 57344))%Z.

Definition DecodeRune16 (r1 r2 : Z) : Z :=
  if ((55296 <=? r1) && (r1 <? 56320) && (56320 <=? r2) && (r2 <? 57344))%Z
  then ((r1 - 55296) * 1024 + (r2 - 56320) + 65536)%Z
  else RuneError.

End UTF8.

(** ** encoding/base64, [StdEncoding.DecodeString] *)

Module Base64.

Definition value (c : ascii) : option Z :=
  if in_range 65 90 c then Some (byte_of c - 65)%Z
  else if in_range 97 122 c then Some (byte_of c - 71)%Z
  else if is_digit c then Some (byte_of c + 4)%Z
  else if Ascii.eqb c "+" then Some 62%Z
  else if Ascii.eqb c "/" then Some 63%Z
  else None.

Definition is_pad (c : ascii) : bool := Ascii.eqb c "=".

(** Quanta of four characters; only the last one may be padded. *)
Fixpoint quanta (s : list ascii) : option (list Z) :=
  match s with
  | [] => Some []
  | a :: b :: c :: d :: rest =>
      match value a, value b with
      | Some va, Some vb =>
          match value c, value d, rest with
          | Some vc, Some vd, _ =>
              let n := (va * 262144 + vb * 4096 + vc * 64 + vd)%Z in
              cons (n / 65536)%Z <$>
                (cons ((n / 256) mod 256)%Z <$>
                   (cons (n mod 256)%Z <$> quanta rest))
          | Some vc, None, [] =>
              if is_pad d then
                let n := (va * 262144 + vb * 4096 + vc * 64)%Z in
                Some [(n / 65536)%Z; ((n / 256) mod 256)%Z]
              else None
          | None, None, [] =>
              if is_pad c && is_pad d then
                Some [((va * 262144 + vb * 4096) / 65536)%Z]
              else None
          | _, _, _ => None
          end
      | _, _ => None
      end
  | _ => None
  end.

(** Carriage returns and line feeds are skipped wherever they stand. *)
Definition DecodeString (s : string) : option (list Z) :=
  quanta (filter (fun c => negb (Ascii.eqb c (ascii_of 13) || Ascii.eqb c (ascii_of 10)))
            (list_ascii_of_string s)).

End Base64.

(** ** encoding/json: syntax *)

Module JSON.

(** A parsed document.  A number keeps its literal text, an object its
    members in document order (duplicate keys included). *)
Inductive json :=
| JNull
| JBool (b : bool)
| JNumber (lit : string)
| JString (s : string)
| JArray (elems : list json)
| JObject (members : list (string * json)).

Inductive token :=
| TkLBrace | TkRBrace | TkLBrack | TkRBrack | TkColon | TkComma
| TkString (s : string) | TkNumber (lit : string)
| TkTrue | TkFalse | TkNull.

Definition is_space (c : ascii) : bool :=
  Ascii.eqb c " " || Ascii.eqb c (ascii_of 9)
  || Ascii.eqb c (ascii_of 10) || Ascii.eqb c (ascii_of 13).

(** *** Numbers: an optional minus sign; [0] or a non-zero digit and
    more digits; optionally a point and digits; optionally [e] or [E],
    a sign and digits. *)

Fixpoint skip_digits (s : list ascii) : list ascii :=
  match s with
  | c :: r => if is_digit c then skip_digits r else s
  | [] => []
  end.

Definition digits1 (s : list ascii) : option (list ascii) :=
  match s with
  | c :: r => if is_digit c then Some (skip_digits r) else None
  | [] => None
  end.

Definition number_exp (s : list ascii) : bool :=
  match s with
  | [] => true
  | c :: r =>
      if Ascii.eqb c "e" || Ascii.eqb c "E" then
        let r' := match r with
                  | sg :: r0 =>
                      if Ascii.eqb sg "+" || Ascii.eqb sg "-" then r0 else r
                  | [] => r
                  end in
        match digits1 r' with Some [] => true | _ => false end
      else false
  end.

Definition number_frac (s : list ascii) : bool :=
  match s with
  | c :: r =>
      if Ascii.eqb c "." then
        match digits1 r with Some r' => number_exp r' | None => false end
      else number_exp s
  | [] => true
  end.

Definition valid_number (s : list ascii) : bool :=
  let s := match s with
           | c :: r => if Ascii.eqb c "-" then r else s
           | [] => s
           end in
  match s with
  | c :: r =>
      if Ascii.eqb c "0" then number_frac r
      else if is_digit c then number_frac (skip_digits r)
      else false
  | [] => false
  end.

(** *** String literals ([unquoteBytes]) *)

(** [getu4]: the code unit of a [\uXXXX] escape at the head of [s] *)
Definition getu4 (s : list ascii) : option Z :=
  match s with
  | b :: u :: h1 :: h2 :: h3 :: h4 :: _ =>
      if Ascii.eqb b backslash && Ascii.eqb u "u" then
        match hex_val h1, hex_val h2, hex_val h3, hex_val h4 with
        | Some a, Some b, Some c, Some d => Some (a * 4096 + b * 256 + c * 16 + d)%Z
        | _, _, _, _ => None
        end
      else None
  | _ => None
  end.

Definition simple_escape (e : ascii) : option ascii :=
  if Ascii.eqb e dquote || Ascii.eqb e backslash || Ascii.eqb e "/" then Some e
  else if Ascii.eqb e "b" then Some (ascii_of 8)
  else if Ascii.eqb e "f" then Some (ascii_of 12)
  else if Ascii.eqb e "n" then Some (ascii_of 10)
  else if Ascii.eqb e "r" then Some (ascii_of 13)
  else if Ascii.eqb e "t" then Some (ascii_of 9)
  else None.

(** The text between the quotes, escapes resolved and ill-formed UTF-8
    replaced by U+FFFD.  Every step consumes at least one byte, so a
    fuel of the length of [s] is never exhausted. *)
Fixpoint unquote_go (fuel : nat) (s : list ascii) : option (list ascii) :=
  match fuel, s with
  | _, [] => Some []
  | O, _ :: _ => None
  | S fuel', c :: r =>
      if Ascii.eqb c backslash then
        match r with
        | [] => None
        | e :: r' =>
            if Ascii.eqb e "u" then
              match getu4 s with
              | None => None
              | Some rr =>
                  let rest := drop 6 s in
                  if UTF8.IsSurrogate rr then
                    let dec := UTF8.DecodeRune16 rr (default (-1)%Z (getu4 rest)) in
                    if (dec =? UTF8.RuneError)%Z then
                      app (UTF8.EncodeRune UTF8.RuneError) <$> unquote_go fuel' rest
                    else
                      app (UTF8.EncodeRune dec) <$> unquote_go fuel' (drop 6 rest)
                  else app (UTF8.EncodeRune rr) <$> unquote_go fuel' rest
              end
            else
              match simple_escape e with
              | Some x => cons x <$> unquote_go fuel' r'
              | None => None
              end
        end
      else if Ascii.eqb c dquote || (byte_of c <? 32)%Z then None
      else if (byte_of c <? 128)%Z then cons c <$> unquote_go fuel' r
      else
        match UTF8.seq_len s with
        | O => app (UTF8.EncodeRune UTF8.RuneError) <$> unquote_go fuel' r
        | n => app (take n s) <$> unquote_go fuel' (drop n s)
        end
  end.

Definition unquote (raw : list ascii) : option string :=
  string_of_list_ascii <$> unquote_go (length raw) raw.

(** *** The scanner, one byte at a time *)

Inductive lmode :=
| LTop
| LStr (acc : list ascii)   (* in a string: the raw bytes so far, reversed *)
| LEsc (acc : list ascii)   (* in a string, after a backslash *)
| LNum (acc : list ascii)   (* in a number: its bytes so far, reversed *)
| LLit (rest : list ascii) (tok : token).   (* in true, false or null *)

Definition number_token (acc : list ascii) : option token :=
  let lit := rev acc in
  if valid_number lit then Some (TkNumber (string_of_list_ascii lit)) else None.

Definition number_char (c : ascii) : bool :=
  is_digit c || Ascii.eqb c "-" || Ascii.eqb c "+" || Ascii.eqb c "."
  || Ascii.eqb c "e" || Ascii.eqb c "E".

Definition lex_top (toks : list token) (c : ascii) : option (lmode * list token) :=
  if is_space c then Some (LTop, toks)
  else if Ascii.eqb c "{" then Some (LTop, TkLBrace :: toks)
  else if Ascii.eqb c "}" then Some (LTop, TkRBrace :: toks)
  else if Ascii.eqb c "[" then Some (LTop, TkLBrack :: toks)
  else if Ascii.eqb c "]" then Some (LTop, TkRBrack :: toks)
  else if Ascii.eqb c ":" then Some (LTop, TkColon :: toks)
  else if Ascii.eqb c "," then Some (LTop, TkComma :: toks)
  else if Ascii.eqb c dquote then Some (LStr [], toks)
  else if Ascii.eqb c "t" then Some (LLit ["r"; "u"; "e"]%char TkTrue, toks)
  else if Ascii.eqb c "f" then Some (LLit ["a"; "l"; "s"; "e"]%char TkFalse, toks)
  else if Ascii.eqb c "n" then Some (LLit ["u"; "l"; "l"]%char TkNull, toks)
  else if is_digit c || Ascii.eqb c "-" then Some (LNum [c], toks)
  else None.

Definition lex_step (st : lmode * list token) (c : ascii)
  : option (lmode * list token) :=
  let '(mode, toks) := st in
  match mode with
  | LTop => lex_top toks c
  | LStr acc =>
      if Ascii.eqb c dquote then
        s ← unquote (rev acc); Some (LTop, TkString s :: toks)
      else if Ascii.eqb c backslash then Some (LEsc (c :: acc), toks)
      else Some (LStr (c :: acc), toks)
  | LEsc acc => Some (LStr (c :: acc), toks)
  | LNum acc =>
      if number_char c then Some (LNum (c :: acc), toks)
      else t ← number_token acc; lex_top (t :: toks) c
  | LLit rest tok =>
      match rest with
      | [x] => if Ascii.eqb c x then Some (LTop, tok :: toks) else None
      | x :: rest' => if Ascii.eqb c x then Some (LLit rest' tok, toks) else None
      | [] => None
      end
  end.

Fixpoint lex_go (st : lmode * list token) (s : list ascii)
  : option (lmode * list token) :=
  match s with
  | [] => Some st
  | c :: r => st' ← lex_step st c; lex_go st' r
  end.

Definition lex (data : string) : option (list token) :=
  st ← lex_go (LTop, []) (list_ascii_of_string data);
  match st with
  | (LTop, toks) => Some (rev toks)
  | (LNum acc, toks) => t ← number_token acc; Some (rev (t :: toks))
  | _ => None
  end.

(** *** The parser: a pushdown automaton over the tokens *)

(** A container whose next element is being read. *)
Inductive frame :=
| FArr (acc : list json)
| FObj (key : string) (acc : list (string * json)).

Inductive pstate :=
| PStart
| PElem (first : bool) (acc : list json) (st : list frame)
| PArrNext (acc : list json) (st : list frame)
| PKey (first : bool) (acc : list (string * json)) (st : list frame)
| PColon (key : string) (acc : list (string * json)) (st : list frame)
| PMember (key : string) (acc : list (string * json)) (st : list frame)
| PObjNext (acc : list (string * json)) (st : list frame)
| PDone (v : json).

(** A value is complete: hand it to the enclosing container. *)
Definition finish (v : json) (st : list frame) : pstate :=
  match st with
  | [] => PDone v
  | FArr acc :: st' => PArrNext (v :: acc) st'
  | FObj k acc :: st' => PObjNext ((k, v) :: acc) st'
  end.

(** [maxNestingDepth]: at most 10000 containers may be open at once. *)
Definition may_open (st : list frame) : bool :=
  (N.of_nat (length st) <? 10000)%N.

(** A value is expected and [tok] comes; [st] holds the containers
    that are open. *)
Definition begin_value (tok : token) (st : list frame) : option pstate :=
  match tok with
  | TkNull => Some (finish JNull st)
  | TkTrue => Some (finish (JBool true) st)
  | TkFalse => Some (finish (JBool false) st)
  | TkNumber lit => Some (finish (JNumber lit) st)
  | TkString s => Some (finish (JString s) st)
  | TkLBrack => if may_open st then Some (PElem true [] st) else None
  | TkLBrace => if may_open st then Some (PKey true [] st) else None
  | _ => None
  end.

Definition parse_step (p : pstate) (tok : token) : option pstate :=
  match p, tok with
  | PStart, _ => begin_value tok []
  | PElem true acc st, TkRBrack => Some (finish (JArray (rev acc)) st)
  | PElem _ acc st, _ => begin_value tok (FArr acc :: st)
  | PArrNext acc st, TkComma => Some (PElem false acc st)
  | PArrNext acc st, TkRBrack => Some (finish (JArray (rev acc)) st)
  | PKey true acc st, TkRBrace => Some (finish (JObject (rev acc)) st)
  | PKey _ acc st, TkString k => Some (PColon k acc st)
  | PColon k acc st, TkColon => Some (PMember k acc st)
  | PMember k acc st, _ => begin_value tok (FObj k acc :: st)
  | PObjNext acc st, TkComma => Some (PKey false acc st)
  | PObjNext acc st, TkRBrace => Some (finish (JObject (rev acc)) st)
  | _, _ => None
  end.

Fixpoint parse_go (p : pstate) (toks : list token) : option pstate :=
  match toks with
  | [] => Some p
  | t :: r => p' ← parse_step p t; parse_go p' r
  end.

(** [checkValid] and the scan of the document: [None] is a syntax error. *)
Definition parse (data : string) : option json :=
  toks ← lex data;
  p ← parse_go PStart toks;
  match p with
  | PDone v => Some v
  | _ => None
  end.

End JSON.

(** ** Go types and values

    The destination types covered: [string], [bool], [uint8], slices,
    maps with string keys and structs of exported fields.  A struct
    field is named by its JSON key (its [json:] tag), which is ASCII.
    Slices are held by value: a slice never shares its backing array
    with another one and has no spare capacity. *)

Inductive rtype :=
| TString
| TBool
| TUint8
| TSlice (elem : rtype)
| TMap (elem : rtype)
| TStruct (fields : list (string * rtype)).

Inductive rvalue :=
| VString (s : string)
| VBool (b : bool)
| VUint8 (n : Z)
| VNil                                      (* the nil slice, the nil map *)
| VSlice (elems : list rvalue)
| VMap (entries : list (string * rvalue))   (* one entry per key *)
| VStruct (fields : list rvalue).           (* in declaration order *)

Inductive Kind := String_ | Bool_ | Uint8_ | Slice_ | Map_ | Struct_ | Pointer_ | Invalid_.

Fixpoint rtype_eqb (t u : rtype) : bool :=
  match t, u with
  | TString, TString | TBool, TBool | TUint8, TUint8 => true
  | TSlice a, TSlice b | TMap a, TMap b => rtype_eqb a b
  | TStruct fs, TStruct gs =>
      (fix fields_eqb (fs gs : list (string * rtype)) : bool :=
         match fs, gs with
         | [], [] => true
         | (n, a) :: fs', (m, b) :: gs' =>
             String.eqb n m && rtype_eqb a b && fields_eqb fs' gs'
         | _, _ => false
         end) fs gs
  | _, _ => false
  end.

(** The zero value of a type *)
Fixpoint zero (t : rtype) : rvalue :=
  match t with
  | TString => VString ""
  | TBool => VBool false
  | TUint8 => VUint8 0
  | TSlice _ | TMap _ => VNil
  | TStruct fs => VStruct (map (fun f => zero f.2) fs)
  end.

Definition slice_elems (v : rvalue) : list rvalue :=
  match v with VSlice l => l | _ => [] end.

Definition map_entries (v : rvalue) : list (string * rvalue) :=
  match v with VMap m => m | _ => [] end.

Definition struct_fields (v : rvalue) : list rvalue :=
  match v with VStruct l => l | _ => [] end.

Fixpoint entry_lookup (m : list (string * rvalue)) (k : string) : option rvalue :=
  match m with
  | [] => None
  | (k', v) :: m' => if String.eqb k' k then Some v else entry_lookup m' k
  end.

(** [m[k] = v] *)
Fixpoint entry_insert (m : list (string * rvalue)) (k : string) (v : rvalue)
  : list (string * rvalue) :=
  match m with
  | [] => [(k, v)]
  | (k', v') :: m' =>
      if String.eqb k' k then (k, v) :: m' else (k', v') :: entry_insert m' k v
  end.

(** [[]byte(s)] as a value of type [[]uint8] *)
Definition bytes_value (s : string) : rvalue :=
  VSlice (VUint8 <$> bytes_of s).

(** ** Errors *)

(** [QFError], the gateway's envelope *)
Record QFError := mkQFError {
  Code : string;      (* json:"respcd" *)
  Err : string;       (* json:"resperr" *)
  Messsage : string   (* json:"respmsg" *)
}.

Inductive error :=
| SyntaxError                          (* *json.SyntaxError *)
| InvalidUnmarshalError                (* *json.InvalidUnmarshalError *)
| UnmarshalTypeError (value : string)  (* *json.UnmarshalTypeError *)
| CorruptInputError                    (* base64.CorruptInputError *)
| GatewayError (e : QFError)           (* a QFError returned as an error *)
| ExternalError (msg : string).        (* reported by net/http, io, httputil *)

(** [QFError.Error] *)
Definition QFError_Error (e : QFError) : string :=
  let err := Err e in
  let err := if String.eqb (Messsage e) "" then err
             else err +:+ " (" +:+ Messsage e +:+ ")" in
  "Error: Code=" +:+ Code e +:+ ", Message=" +:+ err.

(** ** encoding/json: decoding into a typed value *)

Module Decode.
Import JSON.

(** [foldName] on a key matched against ASCII field names: ASCII
    letters to upper case; the long s (U+017F) and the Kelvin sign
    (U+212A), the only other runes whose case folding is an ASCII
    letter, to [S] and [K]. *)
Fixpoint foldName (s : list ascii) : list ascii :=
  match s with
  | [] => []
  | c :: r =>
      if in_range 97 122 c then ascii_of (byte_of c - 32) :: foldName r
      else
        match r with
        | c1 :: r1 =>
            if (byte_of c =? 197)%Z && (byte_of c1 =? 191)%Z
            then "S"%char :: foldName r1
            else
              match r1 with
              | c2 :: r2 =>
                  if (byte_of c =? 226)%Z && (byte_of c1 =? 132)%Z
                     && (byte_of c2 =? 170)%Z
                  then "K"%char :: foldName r2
                  else c :: foldName r
              | [] => c :: foldName r
              end
        | [] => [c]
        end
  end.

Definition fold_eqb (a b : string) : bool :=
  bool_decide (foldName (list_ascii_of_string a) = foldName (list_ascii_of_string b)).

Fixpoint index_where (p : string → bool) (fs : list (string * rtype)) (i : nat)
  : option (nat * rtype) :=
  match fs with
  | [] => None
  | (n, t) :: fs' => if p n then Some (i, t) else index_where p fs' (S i)
  end.

(** The field a key is stored in: the one of that exact name, else the
    first one equal to it under case folding. *)
Definition find_field (fs : list (string * rtype)) (key : string)
  : option (nat * rtype) :=
  match index_where (String.eqb key) fs 0 with
  | Some f => Some f
  | None => index_where (fold_eqb key) fs 0
  end.

(** Only the first error is kept ([saveError]); decoding goes on. *)
Definition first_error (a b : option error) : option error :=
  match a with Some _ => a | None => b end.

(** [strconv.ParseUint(lit, 10, 64)] of a JSON number that fits [uint8] *)
Definition parse_uint8 (lit : string) : option Z :=
  let ds := list_ascii_of_string lit in
  if forallb is_digit ds then
    let n := foldl (fun acc c => acc * 10 + (byte_of c - 48))%Z 0%Z ds in
    if (n <? 256)%Z then Some n else None
  else None.

(** [decodeState.value]: store the document [j] into a variable of type
    [t] that holds [cur]; the new contents and the first saved error. *)
Fixpoint value (t : rtype) (j : json) (cur : rvalue) {struct j}
  : rvalue * option error :=
  match j with
  | JNull =>
      match t with
      | TSlice _ | TMap _ => (VNil, None)
      | _ => (cur, None)
      end
  | JBool b =>
      match t with
      | TBool => (VBool b, None)
      | _ => (cur, Some (UnmarshalTypeError "bool"))
      end
  | JString s =>
      match t with
      | TString => (VString s, None)
      | TSlice TUint8 =>
          match Base64.DecodeString s with
          | Some bs => (VSlice (VUint8 <$> bs), None)
          | None => (cur, Some CorruptInputError)
          end
      | _ => (cur, Some (UnmarshalTypeError "string"))
      end
  | JNumber lit =>
      match t with
      | TUint8 =>
          match parse_uint8 lit with
          | Some n => (VUint8 n, None)
          | None => (cur, Some (UnmarshalTypeError ("number " +:+ lit)))
          end
      | _ => (cur, Some (UnmarshalTypeError "number"))
      end
  | JArray js =>
      match t with
      | TSlice et =>
          (* element i is decoded into the old element i, or into a
             zero element past the old length *)
          let fix elems (js : list json) (olds : list rvalue)
            : list rvalue * option error :=
            match js with
            | [] => ([], None)
            | j :: js' =>
                let '(v, e) := value et j (hd (zero et) olds) in
                let '(vs, e') := elems js' (tl olds) in
                (v :: vs, first_error e e')
            end in
          let '(vs, e) := elems js (slice_elems cur) in
          (VSlice vs, e)
      | _ => (cur, Some (UnmarshalTypeError "array"))
      end
  | JObject ms =>
      match t with
      | TMap et =>
          (* every member is decoded into a fresh zero element, which
             is then stored under its key *)
          let fix members (ms : list (string * json)) (m : list (string * rvalue))
            : list (string * rvalue) * option error :=
            match ms with
            | [] => (m, None)
            | (k, j) :: ms' =>
                let '(v, e) := value et j (zero et) in
                let '(m', e') := members ms' (entry_insert m k v) in
                (m', first_error e e')
            end in
          let '(m, e) := members ms (map_entries cur) in
          (VMap m, e)
      | TStruct fs =>
          (* a member is decoded into the field of its key; members
             that match no field are skipped *)
          let fix members (ms : list (string * json)) (vs : list rvalue)
            : list rvalue * option error :=
            match ms with
            | [] => (vs, None)
            | (k, j) :: ms' =>
                match find_field fs k with
                | Some (i, ft) =>
                    let '(v, e) := value ft j (nth i vs (zero ft)) in
                    let '(vs', e') := members ms' (<[i := v]> vs) in
                    (vs', first_error e e')
                | None => members ms' vs
                end
            end in
          let '(vs, e) := members ms (struct_fields cur) in
          (VStruct vs, e)
      | _ => (cur, Some (UnmarshalTypeError "object"))
      end
  end.

End Decode.

(** [json.Unmarshal] on a variable of type [t] holding [cur]: a
    document that is not well-formed leaves the variable as it is. *)
Definition Unmarshal_value (data : string) (t : rtype) (cur : rvalue)
  : rvalue * option error :=
  match JSON.parse data with
  | None => (cur, Some SyntaxError)
  | Some j => Decode.value t j cur
  end.

(** ** Variables, pointers, interface values *)

Definition addr := N.

(** An [interface{}] argument: nil, a value that is not a pointer (a
    path string is [IValue TString (VString s)]), or a pointer [*t],
    itself nil or the address of a variable of type [t]. *)
Inductive iface :=
| INil
| IValue (t : rtype) (v : rvalue)
| IPtr (t : rtype) (p : option addr).

(** What a panic carries *)
Inductive panic :=
| ValueError (method : string) (kind : Kind)   (* *reflect.ValueError *)
| ReflectPanic (msg : string)                  (* a panic of package reflect *)
| NilDereference                               (* invalid memory address or nil pointer dereference *)
| IndexOutOfRange
| TypeAssertionError.                          (* interface conversion *)

Inductive result (A : Type) :=
| Ok (a : A)
| Panicked (p : panic).
Arguments Ok {A} a.
Arguments Panicked {A} p.

Definition is_panic {A} (r : result A) : bool :=
  match r with Ok _ => false | Panicked _ => true end.

#[global] Instance result_ret : MRet result := fun A a => Ok a.
#[global] Instance result_bind : MBind result := fun A B f r =>
  match r with
  | Ok a => f a
  | Panicked p => Panicked p
  end.

(** The memory: the variables that pointers refer to, each with an
    entry.  Reading an address without an entry, which no pointer
    holds, gives the zero value of the type. *)
Abbreviation Heap := (gmap addr rvalue).

Definition load (h : Heap) (t : rtype) (a : addr) : rvalue :=
  default (zero t) (h !! a).

(** ** Package reflect *)

(** [reflect.Type] of an interface value's dynamic type *)
Inductive gotype :=
| Ty (t : rtype)
| PtrTo (t : rtype).

(** [reflect.Value] *)
Inductive Value :=
| Invalid                            (* the zero Value *)
| Val (t : rtype) (v : rvalue)       (* a value, not addressable *)
| PtrVal (t : rtype) (p : option addr)   (* a pointer of type [*t] *)
| Var (t : rtype) (a : addr).        (* the variable at [a]: addressable *)

Definition kind_of (t : rtype) : Kind :=
  match t with
  | TString => String_
  | TBool => Bool_
  | TUint8 => Uint8_
  | TSlice _ => Slice_
  | TMap _ => Map_
  | TStruct _ => Struct_
  end.

Definition Kind_eqb (a b : Kind) : bool :=
  match a, b with
  | String_, String_ | Bool_, Bool_ | Uint8_, Uint8_ | Slice_, Slice_
  | Map_, Map_ | Struct_, Struct_ | Pointer_, Pointer_ | Invalid_, Invalid_ => true
  | _, _ => false
  end.

(** [reflect.TypeOf]; [None] is the nil [Type] of the nil interface *)
Definition TypeOf (i : iface) : option gotype :=
  match i with
  | INil => None
  | IValue t _ => Some (Ty t)
  | IPtr t _ => Some (PtrTo t)
  end.

(** [Type.Elem], called on the result of [TypeOf] *)
Definition Type_Elem (ty : option gotype) : result rtype :=
  match ty with
  | None => Panicked NilDereference
  | Some (PtrTo t) => Ok t
  | Some (Ty (TSlice t)) => Ok t
  | Some (Ty (TMap t)) => Ok t
  | Some (Ty _) => Panicked (ReflectPanic "reflect: Elem of invalid type")
  end.

Definition ValueOf (i : iface) : Value :=
  match i with
  | INil => Invalid
  | IValue t v => Val t v
  | IPtr t p => PtrVal t p
  end.

(** [reflect.Indirect]: the variable a pointer refers to (the zero
    Value for a nil pointer); any other Value as it is *)
Definition Indirect (v : Value) : Value :=
  match v with
  | PtrVal t (Some a) => Var t a
  | PtrVal t None => Invalid
  | _ => v
  end.

Definition IsValid (v : Value) : bool :=
  match v with Invalid => false | _ => true end.

Definition Value_Kind (v : Value) : Kind :=
  match v with
  | Invalid => Invalid_
  | Val t _ | Var t _ => kind_of t
  | PtrVal _ _ => Pointer_
  end.

(** The type and the contents of a Value that is not a pointer *)
Definition contents (h : Heap) (v : Value) : option (rtype * rvalue) :=
  match v with
  | Val t x => Some (t, x)
  | Var t a => Some (t, load h t a)
  | _ => None
  end.

(** [Value.Len] *)
Definition Value_Len (h : Heap) (v : Value) : result nat :=
  match contents h v with
  | Some (TSlice _, x) => Ok (length (slice_elems x))
  | Some (TMap _, x) => Ok (length (map_entries x))
  | Some (TString, VString s) => Ok (String.length s)
  | _ => Panicked (ValueError "reflect.Value.Len" (Value_Kind v))
  end.

(** [Value.Index] *)
Definition Value_Index (h : Heap) (v : Value) (i : nat) : result Value :=
  match contents h v with
  | Some (TSlice et, x) =>
      match slice_elems x !! i with
      | Some e => Ok (Val et e)
      | None => Panicked (ReflectPanic "reflect: slice index out of range")
      end
  | Some (TString, VString s) =>
      match bytes_of s !! i with
      | Some b => Ok (Val TUint8 (VUint8 b))
      | None => Panicked (ReflectPanic "reflect: string index out of range")
      end
  | _ => Panicked (ValueError "reflect.Value.Index" (Value_Kind v))
  end.

(** [Value.MapIndex] with a string key: the zero Value when the key is
    not in the map *)
Definition Value_MapIndex (h : Heap) (v : Value) (key : string) : result Value :=
  match contents h v with
  | Some (TMap et, x) =>
      match entry_lookup (map_entries x) key with
      | Some e => Ok (Val et e)
      | None => Ok Invalid
      end
  | _ => Panicked (ValueError "reflect.Value.MapIndex" (Value_Kind v))
  end.

(** [reflect.Append(s, x)] *)
Definition Append (h : Heap) (s x : Value) : result Value :=
  match contents h s with
  | Some (TSlice et, l) =>
      match contents h x with
      | Some (xt, xv) =>
          if rtype_eqb xt et then Ok (Val (TSlice et) (VSlice (slice_elems l ++ [xv])%list))
          else Panicked (ReflectPanic "reflect.Set: value is not assignable to type")
      | None => Panicked (ValueError "reflect.Value.Set" (Value_Kind x))
      end
  | _ => Panicked (ValueError "reflect.Append" (Value_Kind s))
  end.

(** [v.Set(x)]: [v] has to be addressable and [x] of [v]'s type *)
Definition Value_Set (h : Heap) (v x : Value) : result Heap :=
  match v with
  | Var t a =>
      match contents h x with
      | Some (xt, xv) =>
          if rtype_eqb xt t then Ok (<[a := xv]> h)
          else Panicked (ReflectPanic "reflect.Set: value is not assignable to type")
      | None => Panicked (ValueError "reflect.Value.Set" (Value_Kind x))
      end
  | Invalid => Panicked (ValueError "reflect.Value.Set" Invalid_)
  | _ => Panicked (ReflectPanic "reflect.Value.Set using unaddressable value")
  end.

(** ** net/http, as far as the client uses it *)

(** [context.Context] *)
Inductive Context :=
| Background
| WithTimeout (parent : Context) (nanoseconds : Z)
| WithCancel (parent : Context).

(** A header field name may hold letters, digits and these marks. *)
Definition validHeaderFieldByte (c : ascii) : bool :=
  in_range 48 57 c || in_range 65 90 c || in_range 97 122 c
  || existsb (Ascii.eqb c)
       ["!"; "#"; "$"; "%"; "&"; "'"; "*"; "+"; "-"; "."; "^"; "_"; "`"; "|"; "~"]%char.

Fixpoint canonical_go (upper : bool) (s : list ascii) : list ascii :=
  match s with
  | [] => []
  | c :: r =>
      let c' := if upper && in_range 97 122 c then ascii_of (byte_of c - 32)
                else if negb upper && in_range 65 90 c then ascii_of (byte_of c + 32)
                else c in
      c' :: canonical_go (Ascii.eqb c' "-") r
  end.

(** [textproto.CanonicalMIMEHeaderKey]: upper case for the first letter
    and after each hyphen, lower case elsewhere; a name with a byte that
    no field name may hold is returned as it is. *)
Definition CanonicalMIMEHeaderKey (s : string) : string :=
  let l := list_ascii_of_string s in
  if forallb validHeaderFieldByte l then string_of_list_ascii (canonical_go true l)
  else s.

Abbreviation Header := (gmap string (list string)).

Definition Header_Set (h : Header) (key value : string) : Header :=
  <[CanonicalMIMEHeaderKey key := [value]]> h.

Definition Header_Get (h : Header) (key : string) : string :=
  match h !! CanonicalMIMEHeaderKey key with
  | Some (x :: _) => x
  | _ => ""
  end.

(** [*http.Request]: what the client sets and the transport reads *)
Record HttpRequest := mkHttpRequest {
  req_ctx : Context;
  req_Method : string;
  req_URL : string;
  req_Header : Header;
  req_Body : option string   (* the bytes the body reader yields; [None]: no body *)
}.

(** [*http.Response]: its header, and what [ioutil.ReadAll(res.Body)]
    returns *)
Record HttpResponse := mkHttpResponse {
  res_Header : Header;
  res_Body : error + string
}.

(** [Request]: the embedded [*http.Request] and the client *)
Record Request := mkRequest {
  httpRequest : HttpRequest;
  client : Client
}.

Definition set_Header (req : Request) (key value : string) : Request :=
  let r := httpRequest req in
  mkRequest
    (mkHttpRequest (req_ctx r) (req_Method r) (req_URL r)
       (Header_Set (req_Header r) key value) (req_Body r))
    (client req).

(** A request body handed to [NewRequest] *)
Inductive ReqBody :=
| BodyNil                           (* nil *)
| BodyReader (content : string)     (* an [io.Reader] yielding these bytes *)
| BodyValue (t : rtype) (v : rvalue).   (* anything else: serialized as JSON *)

(** The collaborators outside the package: the transport, the
    constructor of requests, the dumps of package httputil and the JSON
    encoder.  Each is a function of its arguments; what it returns is
    not constrained.  What a collaborator does to its arguments on the
    way is not recorded: [httputil.DumpResponse], when it is asked for
    the body as well, reads the body to its end and closes it, and
    leaves a copy in its place. *)
Record Env := mkEnv {
  NewRequestWithContext : Context → string → string → option string → error + HttpRequest;
  DefaultClient_Do : HttpRequest → error + HttpResponse;
  DumpRequestOut : HttpRequest → bool → error + string;
  DumpResponse : HttpResponse → bool → error + string;
  json_Marshal : rtype → rvalue → error + string
}.

(** What a call does besides computing: the calls it makes outside. *)
Inductive Event :=
| EvSign (payload : Values)            (* Client.GenerateSign *)
| EvRoundTrip (r : HttpRequest)        (* http.DefaultClient.Do *)
| EvPrintln (line : string)            (* log.Println *)
| EvClose.                             (* res.Body.Close *)

(** ** State: the memory and the calls made so far *)

Record World := mkWorld {
  heap : Heap;
  trace : list Event
}.

(** A computation that may write memory, make outside calls and panic;
    after a panic the state is the one reached when it occurred. *)
Definition M (A : Type) : Type := World → result A * World.

#[global] Instance M_ret : MRet M := fun A a w => (Ok a, w).
#[global] Instance M_bind : MBind M := fun A B f m w =>
  match m w with
  | (Ok a, w') => f a w'
  | (Panicked p, w') => (Panicked p, w')
  end.

(** A step that reads the memory *)
Definition reading {A} (f : Heap → result A) : M A :=
  fun w => (f (heap w), w).

(** A step that writes the memory *)
Definition writing (f : Heap → result Heap) : M unit :=
  fun w =>
    match f (heap w) with
    | Ok h' => (Ok tt, mkWorld h' (trace w))
    | Panicked p => (Panicked p, w)
    end.

Definition tell (e : Event) : M unit :=
  fun w => (Ok tt, mkWorld (heap w) (trace w ++ [e])%list).

(** [defer f()]: [f] runs when the function is left, also by a panic *)
Definition defer {A} (e : Event) (body : M A) : M A :=
  fun w => let '(r, w') := body w in (r, mkWorld (heap w') (trace w' ++ [e])%list).

(** [for _, x := range l { body }] *)
Fixpoint for_each {A} (l : list A) (body : A → M unit) : M unit :=
  match l with
  | [] => mret tt
  | x :: l' => _ ← body x; for_each l' body
  end.

(** ** The path extractor *)

(** [out = append(out, collect(x.Index(i), k)...)], with [rec] for the
    recursive call on the rest of the keys *)
Definition gather (h : Heap) (x : Value) (rec : Value → result (list Value))
    (out : result (list Value)) (i : nat) : result (list Value) :=
  out ← out;
  e ← Value_Index h x i;
  items ← rec e;
  Ok (out ++ items)%list.

(** [collect]: the loop over [keys] carries [x] from one key to the
    next; a wildcard hands the rest of the keys to every element. *)
Fixpoint collect (h : Heap) (x : Value) (keys : list string)
  : result (list Value) :=
  match keys with
  | [] => Ok [x]
  | key :: k =>
      if String.eqb key "*" then
        n ← Value_Len h x;
        foldl (gather h x (fun e => collect h e k)) (Ok []) (seq 0 n)
      else if negb (String.eqb key "") then
        (x' ← Value_MapIndex h x key;
         collect h x' k)
      else collect h x k
  end.

(** The decode shape of a path: from the last key to the first, a
    wildcard wraps the shape in a slice, a name in a map. *)
Definition shape (keys : list string) (baseType : rtype) : rtype :=
  foldr (fun key typ =>
           if String.eqb key "*" then TSlice typ
           else if negb (String.eqb key "") then TMap typ
           else typ)
        baseType keys.

(** The body of the loop of [arrange] over the collected items *)
Definition arrange_item (baseType : rtype) (v : Value) (item : Value) : M unit :=
  let item := if negb (IsValid item) then Val baseType (zero baseType) else item in
  if Kind_eqb (Value_Kind v) Slice_ then
    s ← reading (fun h => Append h v item);
    writing (fun h => Value_Set h v s)
  else writing (fun h => Value_Set h v item).

(** [arrange] *)
Definition arrange (data : string) (target : iface) (key : string) : M unit :=
  let keys := Split key "." in
  baseType ← reading (fun _ => Type_Elem (TypeOf target));
  let baseType := match baseType with TSlice et => et | _ => baseType end in
  let typ := shape keys baseType in
  let d := (Unmarshal_value data typ (zero typ)).1 in
  items ← reading (fun h => collect h (Val typ d) keys);
  let v := Indirect (ValueOf target) in
  if negb (IsValid v) then mret tt
  else for_each items (arrange_item baseType v).

(** ** net/url *)

Definition shouldEscape (c : ascii) : bool :=
  negb (in_range 48 57 c || in_range 65 90 c || in_range 97 122 c
        || existsb (Ascii.eqb c) ["-"; "_"; "."; "~"]%char).

Fixpoint escape_go (s : list ascii) : list ascii :=
  match s with
  | [] => []
  | c :: r =>
      (if Ascii.eqb c " " then ["+"%char]
       else if shouldEscape c then
         ["%"%char; hex_digit (byte_of c / 16); hex_digit (byte_of c mod 16)]
       else [c]) ++ escape_go r
  end%list.

(** [url.QueryEscape] *)
Definition QueryEscape (s : string) : string :=
  string_of_list_ascii (escape_go (list_ascii_of_string s)).

(** [Values.Encode]: [key=value] pairs, escaped, sorted by key *)
Definition Values_Encode (v : Values) : string :=
  let keys := sort_Strings (map_to_list v).*1 in
  Join (k ← keys;
        (fun x => QueryEscape k +:+ "=" +:+ QueryEscape x) <$> default [] (v !! k))
       "&".

(** ** Requests *)

(** [reqBodyToReader] *)
Definition reqBodyToReader (env : Env) (reqBody : ReqBody) : error + option string :=
  match reqBody with
  | BodyNil => inr None
  | BodyReader r => inr (Some r)
  | BodyValue t v =>
      match json_Marshal env t v with
      | inl err => inl err
      | inr b => inr (Some b)
      end
  end.

(** [Client.NewRequest] *)
Definition NewRequest (env : Env) (c : Client) (ctx : Context)
    (method url : string) (reqBody : ReqBody) : error + Request :=
  match reqBodyToReader env reqBody with
  | inl err => inl err
  | inr r =>
      match NewRequestWithContext env ctx method (Prefix c +:+ url) r with
      | inl err => inl err
      | inr req => inr (set_Header (mkRequest req c) "Content-Type" "application/json")
      end
  end.

(** ** The envelope *)

Definition QFError_type : rtype :=
  TStruct [("respcd", TString); ("resperr", TString); ("respmsg", TString)].

Definition string_of (v : rvalue) : string :=
  match v with VString s => s | _ => "" end.

(** [var respError QFError; json.Unmarshal(b, &respError)], the error
    of the decoder dropped *)
Definition Unmarshal_QFError (b : string) : QFError :=
  let fs := struct_fields (Unmarshal_value b QFError_type (zero QFError_type)).1 in
  mkQFError (string_of (nth 0 fs (VString "")))
            (string_of (nth 1 fs (VString "")))
            (string_of (nth 2 fs (VString ""))).

(** [json.Unmarshal(data, v)] for an interface value [v] *)
Definition Unmarshal (data : string) (v : iface) : M (option error) :=
  match JSON.parse data with
  | None => mret (Some SyntaxError)
  | Some j =>
      match v with
      | IPtr t (Some a) =>
          fun w =>
            let '(x, e) := Decode.value t j (load (heap w) t a) in
            (Ok e, mkWorld (<[a := x]> (heap w)) (trace w))
      | _ => mret (Some InvalidUnmarshalError)
      end
  end.

Definition throw {A} (p : panic) : M A := fun w => (Panicked p, w).

(** [dest[i]] *)
Definition index (dest : list iface) (i : nat) : M iface :=
  match dest !! i with
  | Some d => mret d
  | None => throw IndexOutOfRange
  end.

Definition is_string (i : iface) : bool :=
  match i with IValue TString _ => true | _ => false end.

(** [x.(string)] *)
Definition assert_string (i : iface) : M string :=
  match i with
  | IValue TString v => mret (string_of v)
  | _ => throw TypeAssertionError
  end.

(** [strings.Contains] *)
Fixpoint Contains (s sub : string) : bool :=
  String.prefix sub s ||
  match s with
  | EmptyString => false
  | String _ s' => Contains s' sub
  end.

(** [x, err := f(); if err != nil { return err }] *)
Definition try {A} (r : error + A) (k : A → M (option error)) : M (option error) :=
  match r with
  | inl err => mret (Some err)
  | inr a => k a
  end.

(** [Request.Do], lines 208-226: what is done with the body read *)
Definition Do_body (b : string) (dest : list iface) : M (option error) :=
  let respError := Unmarshal_QFError b in
  if negb (String.eqb (Code respError) "0000") then
    mret (Some (GatewayError respError))
  else if (length dest =? 0)%nat then mret None
  else if (1 <? length dest)%nat then
    _ ← for_each (seq 0 (length dest / 2)%nat) (fun n =>
           target ← index dest (2 * n)%nat;
           path ← index dest (2 * n + 1)%nat;
           key ← assert_string path;
           arrange b target key);
    mret None
  else
    d ← index dest 0;
    match d with
    | IPtr (TSlice TUint8) x =>
        match x with
        | Some a =>
            _ ← writing (fun h => Ok (<[a := bytes_value b]> h));
            mret None
        | None => throw NilDereference
        end
    | _ => Unmarshal b d
    end.

(** [if req.client.Debug { dump, err := ...; if err != nil { return err };
    log.Println(string(dump)) }] *)
Definition debug_dump (debug : bool) (dump : error + string)
    (k : M (option error)) : M (option error) :=
  if debug then try dump (fun text => _ ← tell (EvPrintln text); k) else k.

(** [Request.Do] *)
Definition Do (env : Env) (req : Request) (dest : list iface) : M (option error) :=
  debug_dump (Debug (client req)) (DumpRequestOut env (httpRequest req) true) (
  _ ← tell (EvRoundTrip (httpRequest req));
  try (DefaultClient_Do env (httpRequest req)) (fun res =>
  defer EvClose (
    let dumpBody := Contains (Header_Get (res_Header res) "Content-Type") "json" in
    debug_dump (Debug (client req)) (DumpResponse env res dumpBody) (
    try (res_Body res) (fun b =>
    Do_body b dest))))).

(** ** Queries *)

Definition QueryResponse_type : rtype :=
  TStruct
    ((fun k => (k, TString)) <$>
       ["cancel"; "cardcd"; "cardtp"; "chnlsn"; "chnlsn2"; "clisn"; "errmsg";
        "goods_detail"; "goods_info"; "goods_name"; "order_type"; "out_trade_no";
        "pay_type"; "paydtm"; "respcd"; "sysdtm"; "syssn"; "txamt"; "txcurrcd";
        "txdtm"; "udid"; "userid"]).

(** [QueryResponse.Paid]: the field [Respcd] is the fifteenth *)
Definition Paid (res : rvalue) : bool :=
  String.eqb (string_of (nth 14 (struct_fields res) (VString ""))) "0000".

(** [var x t]: a new variable, holding the zero value *)
Definition new_var (t : rtype) : M addr :=
  fun w =>
    let a := fresh (dom (heap w)) in
    (Ok a, mkWorld (<[a := zero t]> (heap w)) (trace w)).

(** The value of a local variable, which then goes out of scope *)
Definition take_var (t : rtype) (a : addr) : M rvalue :=
  fun w => (Ok (load (heap w) t a), mkWorld (delete a (heap w)) (trace w)).

(** [Client.Query]: the responses ([VNil] is the nil slice) and the error *)
Definition Query (env : Env) (c : Client) (ctx : Context) (outTradeNo : list string)
  : M (rvalue * option error) :=
  if (length outTradeNo <? 1)%nat then mret (VNil, None)
  else
    let payload := Values_Set ∅ "out_trade_no" (Join outTradeNo ",") in
    match NewRequest env c ctx "POST" "/trade/v1/query"
            (BodyReader (Values_Encode payload)) with
    | inl err => mret (VNil, Some err)
    | inr req =>
        let req := set_Header req "Content-Type" "application/x-www-form-urlencoded" in
        let req := set_Header req "X-QF-APPCODE" (AppCode c) in
        _ ← tell (EvSign payload);
        (* the payload has one key: there is one order to visit it in *)
        let sign := GenerateSign c payload (map_to_list payload).*1 in
        let req := set_Header req "X-QF-SIGN" sign in
        let req := set_Header req "X-QF-SIGNTYPE" "MD5" in
        responses ← new_var (TSlice QueryResponse_type);
        err ← Do env req [IPtr (TSlice QueryResponse_type) (Some responses);
                           IValue TString (VString "data.*")];
        v ← take_var (TSlice QueryResponse_type) responses;
        mret (v, err)
    end.

(** ** Notions used to state the properties *)

(** The body that [Do] reads, when the exchange, the read of the body
    and, for a debugging client, the two dumps all succeed. *)
Definition response_body (env : Env) (req : Request) : option string :=
  let r := httpRequest req in
  match DefaultClient_Do env r with
  | inl _ => None
  | inr res =>
      match res_Body res with
      | inl _ => None
      | inr b =>
          if Debug (client req) then
            match DumpRequestOut env r true,
                  DumpResponse env res
                    (Contains (Header_Get (res_Header res) "Content-Type") "json") with
            | inr _, inr _ => Some b
            | _, _ => None
            end
          else Some b
      end
  end.

(** The walk of [arrange] for a destination of element type [t]: the
    items collected from the document decoded into the shape of the
    path. *)
Definition walk (data : string) (t : rtype) (key : string) (h : Heap)
  : result (list Value) :=
  let keys := Split key "." in
  let typ := shape keys t in
  collect h (Val typ (Unmarshal_value data typ (zero typ)).1) keys.

(** A collected item is the zero Value or a value of the element type. *)
Definition item_ok (t : rtype) (item : Value) : Prop :=
  item = Invalid ∨ ∃ x, item = Val t x.

(** What [arrange] stores for a collected item: its contents, or the
    zero value of the element type for the zero Value. *)
Definition item_value (t : rtype) (item : Value) : rvalue :=
  match item with
  | Val _ x => x
  | _ => zero t
  end.

(** The loop of [Do] over the pairs *)
Definition pair_loop (b : string) (dest : list iface) : M unit :=
  for_each (seq 0 (length dest / 2)%nat) (fun n =>
    target ← index dest (2 * n)%nat;
    path ← index dest (2 * n + 1)%nat;
    key ← assert_string path;
    arrange b target key).

(** The variable an argument points to *)
Definition target_addr (i : iface) : option addr :=
  match i with
  | IPtr _ p => p
  | _ => None
  end.

(** A computation leaves the variable at [a] as it is. *)
Definition keeps {A} (a : addr) (m : M A) : Prop :=
  ∀ w, heap (m w).2 !! a = heap w !! a.

(** The second element of every processed pair is a string. *)
Definition paths_are_strings (dest : list iface) : bool :=
  forallb (fun n => match dest !! (2 * n + 1)%nat with
                    | Some d => is_string d
                    | None => false
                    end)
          (seq 0 (length dest / 2)%nat).

(** The processed pairs, for a destination list whose paths are strings *)
Definition pairs_of (dest : list iface) : list (iface * string) :=
  (fun n => (default INil (dest !! (2 * n)%nat),
             match dest !! (2 * n + 1)%nat with
             | Some (IValue _ v) => string_of v
             | _ => ""
             end)) <$> seq 0 (length dest / 2)%nat.

(** The documents of the extraction examples *)
Definition wildcard_doc : string :=
  bytes_lit "{'data':[{'out_trade_no':'T1'},{'out_trade_no':'T2'}]}".

Definition absence_doc : string := bytes_lit "{'data':[{}]}".

(** A transport that answers every request with a JSON response of
    body [b]; the dumps succeed, nothing else is provided. *)
Definition answering (b : string) : Env :=
  mkEnv (fun ctx method url body => inr (mkHttpRequest ctx method url ∅ body))
        (fun _ => inr (mkHttpResponse (Header_Set ∅ "Content-Type" "application/json")
                         (inr b)))
        (fun _ _ => inr "request")
        (fun _ _ => inr "response")
        (fun _ _ => inl (ExternalError "json: unsupported")).

Definition sample_client (debug : bool) : Client :=
  mkClient "https://test-openapi-hk.qfapi.com" "APPCODE" "KEY" debug.

Definition sample_request (debug : bool) : Request :=
  mkRequest (mkHttpRequest Background "POST" "/trade/v1/payment" ∅ None)
            (sample_client debug).

From stdpp Require pretty.

(** ** Payments *)

(** [strconv.Itoa]: the decimal digits, after a minus sign for a
    negative number *)
Definition Itoa (i : Z) : string := pretty.pretty_Z i.

(** [MakePayment], lines 80-89: the payload.  [now] is what
    [time.Now().UTC().Format("2006-01-02 15:04:05")] yields, and
    [extra_order] the order in which one run of the loop over [extra]
    visits its entries. *)
Definition payment_payload (payType outTradeNo goodsName : string) (cents : Z)
    (now : string) (extra_order : list (string * string)) : Values :=
  let payload : Values := ∅ in
  let payload := Values_Set payload "txamt" (Itoa cents) in
  let payload := Values_Set payload "txcurrcd" "HKD" in
  let payload := Values_Set payload "pay_type" payType in
  let payload := Values_Set payload "out_trade_no" outTradeNo in
  let payload := Values_Set payload "goods_name" goodsName in
  let payload := Values_Set payload "txdtm" now in
  foldl (fun payload e => Values_Set payload e.1 e.2) payload extra_order.

(** [Client.MakePayment]; [sign_order] is the order in which
    [GenerateSign] visits the payload. *)
Definition MakePayment (env : Env) (c : Client) (ctx : Context)
    (payType outTradeNo goodsName : string) (cents : Z)
    (now : string) (extra_order : list (string * string)) (sign_order : list string)
  : M (error + Request) :=
  let payload := payment_payload payType outTradeNo goodsName cents now extra_order in
  match NewRequest env c ctx "POST" "/trade/v1/payment"
          (BodyReader (Values_Encode payload)) with
  | inl err => mret (inl err)
  | inr req =>
      let req := set_Header req "Content-Type" "application/x-www-form-urlencoded" in
      let req := set_Header req "X-QF-APPCODE" (AppCode c) in
      _ ← tell (EvSign payload);
      let req := set_Header req "X-QF-SIGN" (GenerateSign c payload sign_order) in
      let req := set_Header req "X-QF-SIGNTYPE" "MD5" in
      mret (inr req)
  end.

(** The six fields every payment carries, before the extra ones *)
Definition payment_fields (payType outTradeNo goodsName : string) (cents : Z)
    (now : string) : gmap string string :=
  <["txdtm" := now]> (<["goods_name" := goodsName]> (<["out_trade_no" := outTradeNo]>
    (<["pay_type" := payType]> (<["txcurrcd" := "HKD"]> (<["txamt" := Itoa cents]> ∅))))).

(** The headers both signed calls put on a request *)
Definition signed (c : Client) (sign : string) (req : Request) : Request :=
  let req := set_Header req "Content-Type" "application/x-www-form-urlencoded" in
  let req := set_Header req "X-QF-APPCODE" (AppCode c) in
  let req := set_Header req "X-QF-SIGN" sign in
  set_Header req "X-QF-SIGNTYPE" "MD5".

(** ** Further notions used to state properties *)

Definition is_upper_hex (c : ascii) : bool := in_range 48 57 c || in_range 65 70 c.

(** A payload cut down to the first value of every key (the empty
    string for a key without values) *)
Definition first_values (payload : Values) : Values :=
  (fun vs => [hd "" vs]) <$> payload.

(** The segments of a path that are not empty *)
Definition named_segments (key : string) : list string :=
  filter (fun k => k ≠ "") (Split key ".").

Definition no_dot (key : string) : bool :=
  forallb (fun c => negb (Ascii.eqb c ".")) (list_ascii_of_string key).

(** A computation makes no call outside. *)
Definition quiet {A} (m : M A) : Prop :=
  ∀ w, trace (m w).2 = trace w.

(** The element type [arrange] works with for a pointer to [t] *)
Definition base_type (t : rtype) : rtype :=
  match t with TSlice et => et | _ => t end.

(** What a debugging client logs before the exchange: the dump of the
    request, or the error of the dump; nothing for another client. *)
Definition request_dump (env : Env) (req : Request) : error + list Event :=
  if Debug (client req) then
    match DumpRequestOut env (httpRequest req) true with
    | inl err => inl err
    | inr dump => inr [EvPrintln dump]
    end
  else inr [].

(** Whether [Do] asks [httputil.DumpResponse] for the body as well,
    lines 196-198: a debugging client, on a response whose content type
    mentions json.  The dump then reads and closes the body itself. *)
Definition dumps_body (req : Request) (res : HttpResponse) : bool :=
  Debug (client req)
  && Contains (Header_Get (res_Header res) "Content-Type") "json".

(** The one field of a query *)
Definition query_payload (outTradeNo : list string) : gmap string string :=
  {[ "out_trade_no" := Join outTradeNo "," ]}.

(** What [Query] returns for the items collected under [data.*]: the
    nil slice when there is none *)
Definition query_responses (items : list Value) : rvalue :=
  match items with
  | [] => VNil
  | _ => VSlice (item_value QueryResponse_type <$> items)
  end.

(** The request of a query: the one form field as the body, then the
    four headers with the signature of the one-entry payload; or the
    error of [NewRequest]. *)
Definition query_request (env : Env) (c : Client) (ctx : Context)
    (outTradeNo : list string) : error + Request :=
  match NewRequest env c ctx "POST" "/trade/v1/query"
          (BodyReader ("out_trade_no=" +:+ QueryEscape (Join outTradeNo ","))) with
  | inl err => inl err
  | inr req0 => inr (signed c (Sign_spec (query_payload outTradeNo) (Key c)) req0)
  end.

(** The two arguments [Query] hands to [Do] *)
Definition query_dest (responses : addr) : list iface :=
  [IPtr (TSlice QueryResponse_type) (Some responses); IValue TString (VString "data.*")].

(** The request of a payment with the fields [p]: the form as the body,
    then the four headers with the signature of [p]; or the error of
    [NewRequest]. *)
Definition payment_request (env : Env) (c : Client) (ctx : Context)
    (p : gmap string string) : error + Request :=
  match NewRequest env c ctx "POST" "/trade/v1/payment"
          (BodyReader (Values_Encode (Values_of p))) with
  | inl err => inl err
  | inr req0 => inr (signed c (Sign_spec p (Key c)) req0)
  end.

(** The items of every element of a list in turn, one after the other;
    the first panic met stops the walk. *)
Fixpoint each (f : rvalue → result (list Value)) (l : list rvalue)
  : result (list Value) :=
  match l with
  | [] => Ok []
  | e :: l' => items ← f e; rest ← each f l'; Ok (items ++ rest)%list
  end.

(** A path of one name: no dot, not the wildcard, not empty *)
Definition one_name (key : string) : bool :=
  no_dot key && negb (String.eqb key "*") && negb (String.eqb key "").

(** Arguments as the documentation of [Do] asks for them: pairs of a
    pointer to a variable and a path, here a path of one name *)
Fixpoint named_pairs (dest : list iface) : bool :=
  match dest with
  | [] => true
  | IPtr _ (Some _) :: IValue TString (VString key) :: rest =>
      one_name key && named_pairs rest
  | _ => false
  end.
(** * Properties *)

Local Open Scope nat_scope.
Local Open Scope list_scope.

(** ** MD5 test vectors (RFC 1321) and a signature *)

Example md5_empty : Sprintf_X (MD5.Sum "") = "D41D8CD98F00B204E9800998ECF8427E".
Proof. vm_compute. reflexivity. Qed.

Example md5_abc : Sprintf_X (MD5.Sum "abc") = "900150983CD24FB0D6963F7D28E17F72".
Proof. vm_compute. reflexivity. Qed.

Example md5_56 :
  Sprintf_X (MD5.Sum "aaaaaaaaaaaaaaaaaaaaaaaaaaaaaaaaaaaaaaaaaaaaaaaaaaaaaaaa")
  = "3B0C8AC703F828B04C6C197006D17218".
Proof. vm_compute. reflexivity. Qed.

Example sign_two :
  GenerateSign (mkClient "" "" "KEY" false)
    (Values_Set (Values_Set ∅ "txamt" "100") "out_trade_no" "T1")
    ["txamt"; "out_trade_no"]
  = "DA0F7CE1EEDD2A2CEDB59138F29FF238".
Proof. vm_compute. reflexivity. Qed.

(** ** Sorting *)

Lemma sort_Strings_sorted (a : list string) : Sorted String.le (sort_Strings a).
Proof. apply Sorted_merge_sort; apply _. Qed.

Lemma sort_Strings_perm (a : list string) : sort_Strings a ≡ₚ a.
Proof. apply merge_sort_Permutation. Qed.

(** The increasing arrangement of a list of strings is unique, so every
    correct sorting algorithm returns what [sort_Strings] returns. *)
Lemma sort_Strings_unique (a b : list string) :
  Sorted String.le b → b ≡ₚ a → b = sort_Strings a.
Proof.
  intros Hs Hp.
  apply (Sorted_unique String.le); [done | apply sort_Strings_sorted |].
  by rewrite Hp, sort_Strings_perm.
Qed.

Lemma sort_Strings_proper (a b : list string) :
  a ≡ₚ b → sort_Strings a = sort_Strings b.
Proof.
  intros Hp. apply sort_Strings_unique; [apply sort_Strings_sorted |].
  by rewrite sort_Strings_perm.
Qed.

(** ** The signer *)

Lemma Values_of_insert (p : gmap string string) k v :
  Values_of (<[k := v]> p) = Values_Set (Values_of p) k v.
Proof. unfold Values_of, Values_Set. by rewrite fmap_insert. Qed.

Lemma Values_Get_of (p : gmap string string) k v :
  p !! k = Some v → Values_Get (Values_of p) k = v.
Proof.
  intros H. unfold Values_Get, Values_of. by rewrite lookup_fmap, H.
Qed.

Lemma Values_build_snoc entries k v :
  Values_build (entries ++ [(k, v)]) = Values_Set (Values_build entries) k v.
Proof. unfold Values_build. by rewrite foldl_app. Qed.

Lemma Values_build_list_to_map entries :
  Values_build entries
  = Values_of (list_to_map (reverse entries)).
Proof.
  induction entries as [| [k v] entries IH] using rev_ind; [done |].
  rewrite Values_build_snoc, reverse_snoc, IH. simpl.
  by rewrite Values_of_insert.
Qed.

Lemma Values_build_proper l1 l2 :
  NoDup l1.*1 → l1 ≡ₚ l2 → Values_build l1 = Values_build l2.
Proof.
  intros Hnd Hp. rewrite !Values_build_list_to_map. f_equal.
  apply list_to_map_proper.
  - by rewrite fmap_reverse, reverse_Permutation.
  - by rewrite !reverse_Permutation.
Qed.

(** The [key=value] strings of one run of the loop are a rearrangement
    of those of any other run. *)
Lemma parts_of_order (payload : Values) order :
  range_order payload order →
  (fun k => k +:+ "=" +:+ Values_Get payload k) <$> order
  ≡ₚ (fun k => k +:+ "=" +:+ Values_Get payload k) <$> (map_to_list payload).*1.
Proof. intros H. by rewrite H. Qed.

Lemma GenerateSign_order c (payload : Values) order1 order2 :
  range_order payload order1 → range_order payload order2 →
  GenerateSign c payload order1 = GenerateSign c payload order2.
Proof.
  intros H1 H2. unfold GenerateSign. cbv zeta.
  do 3 f_equal. f_equal. apply sort_Strings_proper.
  by rewrite (parts_of_order _ _ H1), (parts_of_order _ _ H2).
Qed.

Lemma parts_of_Values_of (p : gmap string string) :
  (fun k => k +:+ "=" +:+ Values_Get (Values_of p) k) <$> (map_to_list (Values_of p)).*1
  = (fun e : string * string => e.1 +:+ "=" +:+ e.2) <$> map_to_list p.
Proof.
  unfold Values_of at 2. rewrite map_to_list_fmap.
  rewrite <- !list_fmap_compose.
  apply list_fmap_ext. intros i [k v] Hi. simpl.
  f_equal. f_equal. apply Values_Get_of.
  apply elem_of_map_to_list, list_elem_of_lookup. eauto.
Qed.

(** C2: for every payload (a mapping from string keys to string values,
    hence duplicate-free) and every secret key, [GenerateSign] returns
    the upper-case hexadecimal MD5 digest of the sorted [key=value]
    strings joined with [&] and followed by the secret key, whatever
    order the runtime visits the keys in. *)
Theorem GenerateSign_is_Sign_spec (c : Client) (p : gmap string string)
    (order : list string) :
  range_order (Values_of p) order →
  GenerateSign c (Values_of p) order = Sign_spec p (Key c).
Proof.
  intros Hord. unfold GenerateSign, Sign_spec. cbv zeta.
  do 3 f_equal. f_equal. apply sort_Strings_proper.
  rewrite (parts_of_order _ _ Hord). by rewrite parts_of_Values_of.
Qed.

Lemma GenerateSign_is_Sign_spec_witness :
  let p : gmap string string := <["txamt" := "100"]> (<["out_trade_no" := "T1"]> ∅) in
  GenerateSign (mkClient "" "" "KEY" false) (Values_of p) ["txamt"; "out_trade_no"]
  = Sign_spec p "KEY".
Proof.
  intros p.
  apply (GenerateSign_is_Sign_spec (mkClient "" "" "KEY" false) p).
  unfold range_order. vm_compute. apply perm_swap.
Defined.

(** C6: two payloads filled with the same key/value pairs by
    [payload.Set] calls made in different orders get the same
    signature, whatever order the runtime visits the keys in. *)
Theorem GenerateSign_insertion_order (c : Client)
    (l1 l2 : list (string * string)) (order1 order2 : list string) :
  NoDup l1.*1 → l1 ≡ₚ l2 →
  range_order (Values_build l1) order1 →
  range_order (Values_build l2) order2 →
  GenerateSign c (Values_build l1) order1 = GenerateSign c (Values_build l2) order2.
Proof.
  intros Hnd Hp H1 H2.
  rewrite <- (Values_build_proper l1 l2 Hnd Hp) in *.
  by apply GenerateSign_order.
Qed.

Lemma GenerateSign_insertion_order_witness :
  GenerateSign (mkClient "" "" "KEY" false)
    (Values_build [("txamt", "100"); ("out_trade_no", "T1")]) ["txamt"; "out_trade_no"]
  = GenerateSign (mkClient "" "" "KEY" false)
    (Values_build [("out_trade_no", "T1"); ("txamt", "100")]) ["out_trade_no"; "txamt"].
Proof.
  apply GenerateSign_insertion_order.
  - vm_compute. apply NoDup_cons; split; [by intros [=]%list_elem_of_singleton |]. apply NoDup_singleton.
  - apply perm_swap.
  - unfold range_order. vm_compute. apply perm_swap.
  - unfold range_order. vm_compute. reflexivity.
Defined.

(** ** Loops in the monad of memory, calls and panics *)

Lemma for_each_ext {A} (l : list A) (f g : A → M unit) :
  (∀ x, x ∈ l → f x = g x) → for_each l f = for_each l g.
Proof.
  induction l as [| x l IH]; intros H; [done |].
  simpl. rewrite (H x) by apply list_elem_of_here.
  rewrite IH; [done |]. intros y Hy. apply H. by apply list_elem_of_further.
Qed.

Lemma for_each_fmap {A B} (f : A → B) (l : list A) (body : B → M unit) :
  for_each (f <$> l) body = for_each l (fun x => body (f x)).
Proof.
  induction l as [| x l IH]; [done |].
  rewrite fmap_cons. cbn [for_each]. by rewrite IH.
Qed.

(** A loop panics when the body panics, in every state, for one of the
    elements. *)
Lemma for_each_panics {A} (l : list A) (body : A → M unit) x w :
  x ∈ l → (∀ w', is_panic (body x w').1 = true) →
  is_panic (for_each l body w).1 = true.
Proof.
  intros Hin Hx. revert w. induction l as [| y l IH]; intros w.
  - by apply elem_of_nil in Hin.
  - simpl. unfold mbind, M_bind.
    destruct (body y w) as [[[] | p] w'] eqn:Hy; [| done].
    apply elem_of_cons in Hin as [-> | Hin].
    + specialize (Hx w). by rewrite Hy in Hx.
    + by apply IH.
Qed.

Lemma forallb_false {A} (p : A → bool) (l : list A) :
  forallb p l = false → ∃ x, x ∈ l ∧ p x = false.
Proof.
  induction l as [| y l IH]; [done |]. simpl.
  destruct (p y) eqn:Hy.
  - intros H. destruct (IH H) as (x & Hx & Hp).
    exists x. split; [by apply list_elem_of_further | done].
  - intros _. exists y. split; [apply list_elem_of_here | done].
Qed.

(** ** The path extractor *)

Lemma rtype_eqb_refl (t : rtype) : rtype_eqb t t = true.
Proof.
  revert t. fix IH 1. intros [| | | t | t | fs]; simpl; try done.
  induction fs as [| [n a] fs IHfs]; [done |].
  by rewrite String.eqb_refl, (IH a), IHfs.
Qed.

Lemma gather_Panicked h x rec p l :
  foldl (gather h x rec) (Panicked p) l = Panicked p.
Proof. induction l as [| i l IH]; [done |]. simpl. apply IH. Qed.

Lemma gather_Forall (P : Value → Prop) h x rec :
  (∀ i e items, Value_Index h x i = Ok e → rec e = Ok items → Forall P items) →
  ∀ l acc items, Forall P acc →
                 foldl (gather h x rec) (Ok acc) l = Ok items → Forall P items.
Proof.
  intros Hrec. induction l as [| i l IH]; intros acc items Hacc Hf.
  - simpl in Hf. by injection Hf as <-.
  - cbn [foldl] in Hf.
    destruct (gather h x rec (Ok acc) i) as [acc' | p] eqn:Hg.
    + apply (IH acc' items); [| done].
      unfold gather in Hg. cbn [mbind result_bind] in Hg.
      destruct (Value_Index h x i) as [e | ?] eqn:He; [| done].
      cbn [mbind result_bind] in Hg.
      destruct (rec e) as [its | ?] eqn:Hr; [| done].
      cbn [mbind result_bind] in Hg.
      injection Hg as <-. apply Forall_app_2; [done |]. by apply (Hrec i e).
    + by rewrite gather_Panicked in Hf.
Qed.

(** The items that [collect] returns on a value of the shape of the
    path have the element type. *)
Lemma collect_typed h t keys :
  ∀ x items, item_ok (shape keys t) x → collect h x keys = Ok items →
             Forall (item_ok t) items.
Proof.
  induction keys as [| key k IH]; intros x items Hx Hc.
  - simpl in *. injection Hc as <-. by constructor.
  - cbn [collect] in Hc. cbn [shape foldr] in Hx. fold (shape k t) in Hx.
    destruct (String.eqb key "*") eqn:Hstar.
    + destruct Hx as [-> | [v ->]]; [done |].
      cbn [mbind result_bind Value_Len contents] in Hc.
      apply (gather_Forall (item_ok t) _ _ _) with (acc := []) in Hc; [done | | done].
      intros i e its He. unfold Value_Index in He. cbn [contents] in He.
      destruct (slice_elems v !! i); [| done]. injection He as <-.
      apply IH. right. eauto.
    + destruct (String.eqb key "") eqn:Hempty; cbn [negb] in Hc, Hx.
      * by apply (IH x).
      * destruct Hx as [-> | [v ->]]; [done |].
        unfold Value_MapIndex in Hc. cbn [contents mbind result_bind] in Hc.
        destruct (entry_lookup (map_entries v) key) as [e |].
        -- apply (IH (Val (shape k t) e)); [right; eauto | done].
        -- apply (IH Invalid); [by left | done].
Qed.

Lemma walk_typed data t key h items :
  walk data t key h = Ok items → Forall (item_ok t) items.
Proof. apply collect_typed. right. eauto. Qed.

(** The item that the loop of [arrange] stores *)
Lemma item_ok_value t item :
  item_ok t item →
  (if negb (IsValid item) then Val t (zero t) else item) = Val t (item_value t item).
Proof. by intros [-> | [x ->]]. Qed.

(** The loop of [arrange] on a variable that is not a slice: every item
    overwrites the variable. *)
Lemma arrange_loop_scalar t a items w :
  kind_of t ≠ Slice_ → Forall (item_ok t) items →
  for_each items (arrange_item t (Var t a)) w
  = (Ok tt,
     match last items with
     | None => w
     | Some item => mkWorld (<[a := item_value t item]> (heap w)) (trace w)
     end).
Proof.
  intros Hk Hitems. revert w.
  induction Hitems as [| item items Hitem _ IH]; intros w; [done |].
  cbn [for_each]. unfold mbind, M_bind.
  assert (Hstep : arrange_item t (Var t a) item w
                  = (Ok tt, mkWorld (<[a := item_value t item]> (heap w)) (trace w))).
  { unfold arrange_item. rewrite (item_ok_value _ _ Hitem).
    replace (Kind_eqb (Value_Kind (Var t a)) Slice_) with false
      by (simpl; by destruct t).
    unfold writing. simpl. by rewrite rtype_eqb_refl. }
  rewrite Hstep, IH. f_equal.
  destruct items as [| item' items]; [done |].
  rewrite last_cons_cons.
  destruct (last (item' :: items)) eqn:Hlast; simpl.
  - by rewrite insert_insert_eq.
  - by apply last_None in Hlast.
Qed.

(** The loop of [arrange] on a slice variable: every item is appended. *)
Lemma arrange_loop_slice et a items w :
  Forall (item_ok et) items →
  for_each items (arrange_item et (Var (TSlice et) a)) w
  = (Ok tt,
     match items with
     | [] => w
     | _ => mkWorld (<[a := VSlice (slice_elems (load (heap w) (TSlice et) a)
                                     ++ (item_value et <$> items))]> (heap w))
                    (trace w)
     end).
Proof.
  intros Hitems. revert w.
  induction Hitems as [| item items Hitem _ IH]; intros w; [done |].
  cbn [for_each]. unfold mbind, M_bind.
  assert (Hstep : arrange_item et (Var (TSlice et) a) item w
                  = (Ok tt, mkWorld (<[a := VSlice (slice_elems (load (heap w) (TSlice et) a)
                                                      ++ [item_value et item])]> (heap w))
                                    (trace w))).
  { unfold arrange_item. rewrite (item_ok_value _ _ Hitem).
    unfold mbind, M_bind, reading, writing. simpl.
    unfold Append. cbn [contents]. rewrite rtype_eqb_refl.
    cbn [contents]. change (rtype_eqb (TSlice et) (TSlice et)) with (rtype_eqb et et).
    by rewrite rtype_eqb_refl. }
  rewrite Hstep, IH. f_equal.
  destruct items as [| item' items]; [done |].
  unfold load at 1. simpl. rewrite lookup_insert_eq. simpl.
  rewrite insert_insert_eq. by rewrite <- app_assoc.
Qed.

(** [arrange] on a pointer to a variable that is not a slice *)
Lemma arrange_scalar data t a key w items :
  kind_of t ≠ Slice_ →
  walk data t key (heap w) = Ok items →
  arrange data (IPtr t (Some a)) key w
  = (Ok tt,
     match last items with
     | None => w
     | Some item => mkWorld (<[a := item_value t item]> (heap w)) (trace w)
     end).
Proof.
  intros Hk Hwalk. unfold arrange. unfold mbind at 1, M_bind at 1. simpl.
  replace (match t with TSlice et => et | _ => t end) with t by (by destruct t).
  unfold mbind, M_bind, reading. unfold walk in Hwalk. rewrite Hwalk.
  apply arrange_loop_scalar; [done |]. by apply (walk_typed data t key (heap w)).
Qed.

(** [arrange] on a pointer to a slice variable *)
Lemma arrange_slice data et a key w items :
  walk data et key (heap w) = Ok items →
  arrange data (IPtr (TSlice et) (Some a)) key w
  = (Ok tt,
     match items with
     | [] => w
     | _ => mkWorld (<[a := VSlice (slice_elems (load (heap w) (TSlice et) a)
                                     ++ (item_value et <$> items))]> (heap w))
                    (trace w)
     end).
Proof.
  intros Hwalk. unfold arrange. unfold mbind at 1, M_bind at 1. simpl.
  unfold mbind, M_bind, reading. unfold walk in Hwalk. rewrite Hwalk.
  apply arrange_loop_slice. by apply (walk_typed data et key (heap w)).
Qed.

(** When the walk panics, [arrange] panics and writes nothing. *)
Lemma arrange_walk_panics data t a key w p :
  walk data (match t with TSlice et => et | _ => t end) key (heap w) = Panicked p →
  arrange data (IPtr t (Some a)) key w = (Panicked p, w).
Proof.
  intros Hwalk. unfold arrange. unfold mbind at 1, M_bind at 1. simpl.
  unfold mbind, M_bind, reading. unfold walk in Hwalk. by rewrite Hwalk.
Qed.

(** ** Extraction: the wildcard example *)

Example wildcard_doc_parsed :
  JSON.parse wildcard_doc
  = Some (JSON.JObject
            [("data", JSON.JArray
                        [JSON.JObject [("out_trade_no", JSON.JString "T1")];
                         JSON.JObject [("out_trade_no", JSON.JString "T2")]])]).
Proof. vm_compute. reflexivity. Qed.

Lemma walk_wildcard h :
  walk wildcard_doc TString "data.*.out_trade_no" h
  = Ok [Val TString (VString "T1"); Val TString (VString "T2")].
Proof. vm_compute. reflexivity. Qed.

(** On any string sequence the two values are appended, in order, after
    the elements already there. *)
Lemma wildcard_values_appended a w :
  arrange wildcard_doc (IPtr (TSlice TString) (Some a)) "data.*.out_trade_no" w
  = (Ok tt,
     mkWorld (<[a := VSlice (slice_elems (load (heap w) (TSlice TString) a)
                             ++ [VString "T1"; VString "T2"])]> (heap w))
             (trace w)).
Proof. by rewrite (arrange_slice _ _ _ _ _ _ (walk_wildcard (heap w))). Qed.

(** C3, as the code has it: extracting from the document with the
    path [data.*.out_trade_no] into a non-nil pointer to a string
    sequence returns without a panic and appends [T1], [T2], in this
    order, to the elements that the sequence holds; nothing else is
    written.  A sequence that is empty before the call (nil or of
    length 0) holds exactly [T1], [T2] afterwards. *)
Theorem arrange_wildcard a w :
  arrange wildcard_doc (IPtr (TSlice TString) (Some a)) "data.*.out_trade_no" w
  = (Ok tt,
     mkWorld (<[a := VSlice (slice_elems (load (heap w) (TSlice TString) a)
                             ++ [VString "T1"; VString "T2"])]> (heap w))
             (trace w))
  ∧ (slice_elems (load (heap w) (TSlice TString) a) = [] →
     arrange wildcard_doc (IPtr (TSlice TString) (Some a)) "data.*.out_trade_no" w
     = (Ok tt,
        mkWorld (<[a := VSlice [VString "T1"; VString "T2"]]> (heap w)) (trace w))).
Proof.
  split; [apply wildcard_values_appended |].
  intros Hempty. by rewrite wildcard_values_appended, Hempty.
Qed.

Lemma arrange_wildcard_witness :
  let w := mkWorld (<[1%N := VNil]> ∅) [] in
  arrange wildcard_doc (IPtr (TSlice TString) (Some 1%N)) "data.*.out_trade_no" w
  = (Ok tt,
     mkWorld (<[1%N := VSlice [VString "T1"; VString "T2"]]> (heap w)) (trace w)).
Proof.
  intros w. apply (proj2 (arrange_wildcard 1%N w)). reflexivity.
Defined.

(** C3 as stated fails: a sequence that holds an element before the
    call holds three afterwards, the two values after the one that was
    there, and not exactly [T1], [T2]. *)
Lemma arrange_wildcard_counterexample :
  let w := mkWorld (<[1%N := VSlice [VString "T0"]]> ∅) [] in
  let r := arrange wildcard_doc (IPtr (TSlice TString) (Some 1%N))
             "data.*.out_trade_no" w in
  r.1 = Ok tt
  ∧ load (heap r.2) (TSlice TString) 1%N
    = VSlice [VString "T0"; VString "T1"; VString "T2"]
  ∧ load (heap r.2) (TSlice TString) 1%N ≠ VSlice [VString "T1"; VString "T2"].
Proof. vm_compute. repeat split; discriminate. Qed.

(** ** Extraction into a scalar *)

(** C4, as the code has it: for a pointer to a variable that is not a
    slice, when the walk returns its items, [arrange] returns and the
    variable holds the last item collected (the only one, when there is
    one), the zero value of its type standing for an absent item; when
    the walk collects nothing the variable, like the rest of the state,
    is left as it was. *)
Theorem arrange_scalar_destination data t a key w items :
  kind_of t ≠ Slice_ →
  walk data t key (heap w) = Ok items →
  (items = [] → arrange data (IPtr t (Some a)) key w = (Ok tt, w))
  ∧ (∀ before item, items = before ++ [item] →
       arrange data (IPtr t (Some a)) key w
       = (Ok tt, mkWorld (<[a := item_value t item]> (heap w)) (trace w))
       ∧ load (heap (arrange data (IPtr t (Some a)) key w).2) t a
         = item_value t item).
Proof.
  intros Hk Hwalk. rewrite (arrange_scalar _ _ _ _ _ _ Hk Hwalk). split.
  - by intros ->.
  - intros before item ->. rewrite last_snoc. split; [done |].
    unfold load. simpl. by rewrite lookup_insert_eq.
Qed.

Lemma arrange_scalar_destination_witness :
  let data := bytes_lit "{'qrcode':'ABC','syssn':'123'}" in
  let w := mkWorld (<[1%N := VString "sentinel"]> ∅) [] in
  let items := [Val TString (VString "ABC")] in
  (items = [] → arrange data (IPtr TString (Some 1%N)) "qrcode" w = (Ok tt, w))
  ∧ (∀ before item, items = before ++ [item] →
       arrange data (IPtr TString (Some 1%N)) "qrcode" w
       = (Ok tt, mkWorld (<[1%N := item_value TString item]> (heap w)) (trace w))
       ∧ load (heap (arrange data (IPtr TString (Some 1%N)) "qrcode" w).2) TString 1%N
         = item_value TString item).
Proof.
  intros data w items.
  apply (arrange_scalar_destination data TString 1%N "qrcode" w items).
  - discriminate.
  - vm_compute. reflexivity.
Defined.

(** C4 as stated fails: a wildcard over an empty array collects
    nothing, and a string variable that held a sentinel still holds it
    afterwards, not the zero value of its type. *)
Lemma arrange_scalar_destination_counterexample :
  let data := bytes_lit "{'data':[]}" in
  let w := mkWorld (<[1%N := VString "sentinel"]> ∅) [] in
  let r := arrange data (IPtr TString (Some 1%N)) "data.*" w in
  walk data TString "data.*" (heap w) = Ok []
  ∧ r.1 = Ok tt
  ∧ load (heap r.2) TString 1%N = VString "sentinel"
  ∧ load (heap r.2) TString 1%N ≠ zero TString.
Proof. vm_compute. repeat split; discriminate. Qed.

(** ** Extraction: a key absent at the last segment *)

Lemma walk_absence h :
  walk absence_doc TString "data.*.missing_field" h = Ok [Invalid].
Proof. vm_compute. reflexivity. Qed.

(** The example of the specification: a key absent at the last segment
    gives the zero value as an element. *)
Lemma arrange_absence a w :
  slice_elems (load (heap w) (TSlice TString) a) = [] →
  arrange absence_doc (IPtr (TSlice TString) (Some a)) "data.*.missing_field" w
  = (Ok tt, mkWorld (<[a := VSlice [VString ""]]> (heap w)) (trace w)).
Proof.
  intros Hempty.
  by rewrite (arrange_slice _ _ _ _ _ _ (walk_absence (heap w))), Hempty.
Qed.

(** ** What a computation leaves alone *)

Lemma keeps_ret {A} a (x : A) : keeps a (mret x : M A).
Proof. by intros w. Qed.

Lemma keeps_throw {A} a p : keeps a (throw p : M A).
Proof. by intros w. Qed.

Lemma keeps_tell a e : keeps a (tell e).
Proof. by intros w. Qed.

Lemma keeps_reading {A} a (f : Heap → result A) : keeps a (reading f).
Proof. by intros w. Qed.

Lemma keeps_bind {A B} a (m : M A) (f : A → M B) :
  keeps a m → (∀ x, keeps a (f x)) → keeps a (m ≫= f).
Proof.
  intros Hm Hf w. unfold mbind, M_bind. specialize (Hm w).
  destruct (m w) as [[x | p] w']; simpl in *; [| done].
  by rewrite (Hf x w').
Qed.

Lemma keeps_writing a (f : Heap → result Heap) :
  (∀ h h', f h = Ok h' → h' !! a = h !! a) → keeps a (writing f).
Proof.
  intros Hf w. unfold writing.
  destruct (f (heap w)) as [h' | p] eqn:Hfw; simpl; [| done]. by apply Hf.
Qed.

Lemma keeps_defer {A} a e (m : M A) : keeps a m → keeps a (defer e m).
Proof.
  intros Hm w. unfold defer. specialize (Hm w). by destruct (m w).
Qed.

Lemma keeps_for_each {A} a (l : list A) (body : A → M unit) :
  (∀ x, x ∈ l → keeps a (body x)) → keeps a (for_each l body).
Proof.
  induction l as [| x l IH]; intros H; [apply keeps_ret |].
  cbn [for_each]. apply keeps_bind.
  - apply H, list_elem_of_here.
  - intros _. apply IH. intros y Hy. by apply H, list_elem_of_further.
Qed.

Lemma keeps_try {A} a (r : error + A) (k : A → M (option error)) :
  (∀ x, keeps a (k x)) → keeps a (try r k).
Proof. intros H. destruct r; [apply keeps_ret | apply H]. Qed.

Lemma keeps_debug_dump a debug dump k :
  keeps a k → keeps a (debug_dump debug dump k).
Proof.
  intros H. unfold debug_dump. destruct debug; [| done].
  apply keeps_try. intros text. apply keeps_bind; [apply keeps_tell | done].
Qed.

(** [arrange] writes the variable its target points to and no other. *)
Lemma keeps_arrange a data target key :
  target_addr target ≠ Some a → keeps a (arrange data target key).
Proof.
  intros Ht. unfold arrange.
  apply keeps_bind; [apply keeps_reading |]. intros baseType.
  apply keeps_bind; [apply keeps_reading |]. intros items.
  destruct (negb _); [apply keeps_ret |].
  apply keeps_for_each. intros item _. unfold arrange_item.
  assert (Hv : ∀ t, Indirect (ValueOf target) ≠ Var t a).
  { intros t. destruct target as [| ? ? | ? [a' |]]; try done.
    simpl. intros [= _ ->]. by apply Ht. }
  assert (Hset : ∀ x, keeps a (writing (fun h => Value_Set h (Indirect (ValueOf target)) x))).
  { intros x. apply keeps_writing. intros h h' Hs.
    destruct (Indirect (ValueOf target)) as [| | | t a'] eqn:Hi; try done.
    simpl in Hs. destruct (contents h x) as [[xt xv] |]; [| done].
    destruct (rtype_eqb xt t); [| done]. injection Hs as <-.
    apply lookup_insert_ne. intros ->. by apply (Hv t). }
  destruct (Kind_eqb _ _); [| apply Hset].
  apply keeps_bind; [apply keeps_reading | intros s; apply Hset].
Qed.

Lemma keeps_Unmarshal a data d :
  target_addr d ≠ Some a → keeps a (Unmarshal data d).
Proof.
  intros Hd w. unfold Unmarshal. destruct (JSON.parse data) as [j |]; [| done].
  destruct d as [| ? ? | t [a' |]]; try done. cbv beta.
  destruct (Decode.value t j (load (heap w) t a')) as [x e]. simpl.
  apply lookup_insert_ne. intros ->. by apply Hd.
Qed.

Lemma keeps_index {A} a (dest : list iface) i (k : iface → M A) :
  (∀ d, dest !! i = Some d → keeps a (k d)) → keeps a (index dest i ≫= k).
Proof.
  intros Hk w. unfold index, mbind, M_bind.
  destruct (dest !! i) as [d |]; [| done]. by apply Hk.
Qed.

Lemma keeps_assert_string a (path : iface) : keeps a (assert_string path).
Proof.
  unfold assert_string.
  destruct path as [| [] ? | ? ?]; first [apply keeps_ret | apply keeps_throw].
Qed.

(** What [Do] does with the body writes the variables the arguments
    point to and no other. *)
Lemma keeps_Do_body a b dest :
  (∀ d, d ∈ dest → target_addr d ≠ Some a) → keeps a (Do_body b dest).
Proof.
  intros Hdest. unfold Do_body.
  destruct (negb _); [apply keeps_ret |].
  destruct (length dest =? 0); [apply keeps_ret |].
  destruct (1 <? length dest).
  - apply keeps_bind; [| intros _; apply keeps_ret].
    apply keeps_for_each. intros n _.
    apply keeps_index. intros target Htarget.
    apply keeps_index. intros path _.
    apply keeps_bind; [apply keeps_assert_string |]. intros key.
    apply keeps_arrange, Hdest. by apply list_elem_of_lookup_2 in Htarget.
  - apply keeps_index. intros d Hd.
    apply list_elem_of_lookup_2, Hdest in Hd.
    destruct d as [| ? ? | t x]; try by apply keeps_Unmarshal.
    destruct t as [| | | t' | |]; try by apply keeps_Unmarshal.
    destruct t'; try by apply keeps_Unmarshal.
    destruct x as [a' |]; [| apply keeps_throw].
    apply keeps_bind; [| intros _; apply keeps_ret].
    apply keeps_writing. intros h h' [= <-].
    apply lookup_insert_ne. intros ->. by apply Hd.
Qed.

(** [Do] writes the variables its arguments point to and no other. *)
Lemma keeps_Do a env req dest :
  (∀ d, d ∈ dest → target_addr d ≠ Some a) → keeps a (Do env req dest).
Proof.
  intros Hdest. unfold Do.
  apply keeps_debug_dump.
  apply keeps_bind; [apply keeps_tell |]. intros _.
  apply keeps_try. intros res.
  apply keeps_defer, keeps_debug_dump, keeps_try. intros b.
  by apply keeps_Do_body.
Qed.

(** ** The envelope: what is done with the body *)

(** [json.Unmarshal] returns an error or nil, never panics, and makes
    no call outside. *)
Lemma Unmarshal_returns data d w :
  ∃ e h, Unmarshal data d w = (Ok e, mkWorld h (trace w)).
Proof.
  unfold Unmarshal. destruct (JSON.parse data) as [j |].
  - destruct d as [| t v | t [a |]]; try (by exists (Some InvalidUnmarshalError), (heap w); destruct w).
    cbv beta. destruct (Decode.value t j (load (heap w) t a)) as [x e].
    by exists e, (<[a := x]> (heap w)).
  - exists (Some SyntaxError), (heap w). by destruct w.
Qed.

(** What it returns and stores does not depend on the calls made before. *)
Lemma Unmarshal_trace data d h t t' :
  (Unmarshal data d (mkWorld h t)).1 = (Unmarshal data d (mkWorld h t')).1
  ∧ heap (Unmarshal data d (mkWorld h t)).2 = heap (Unmarshal data d (mkWorld h t')).2.
Proof.
  unfold Unmarshal. destruct (JSON.parse data) as [j |]; [| done].
  destruct d as [| ? ? | ty [a |]]; try done. simpl.
  by destruct (Decode.value ty j (load h ty a)).
Qed.

Lemma index_app_l ds x i : i < length ds → index (ds ++ [x]) i = index ds i.
Proof. intros H. unfold index. by rewrite lookup_app_l. Qed.

Lemma half_snoc_even n : Nat.Even n → (n + 1) / 2 = n / 2.
Proof.
  intros [k ->]. rewrite (Nat.mul_comm 2 k), Nat.div_add_l by lia.
  rewrite Nat.div_mul by lia. simpl. lia.
Qed.

Lemma pair_in_range n len : n < len / 2 → 2 * n < len ∧ 2 * n + 1 < len.
Proof.
  intros H. assert (2 * (len / 2) ≤ len) by (apply Nat.Div0.mul_div_le). lia.
Qed.

(** An unpaired last argument does not change what is done with the
    body. *)
Lemma Do_body_unpaired b ds x :
  Nat.Even (length ds) → 2 ≤ length ds →
  Do_body b (ds ++ [x]) = Do_body b ds.
Proof.
  intros Heven Hlen. unfold Do_body.
  rewrite length_app. simpl length.
  rewrite (half_snoc_even _ Heven).
  replace (length ds + 1 =? 0) with false by (symmetry; apply Nat.eqb_neq; lia).
  replace (length ds =? 0) with false by (symmetry; apply Nat.eqb_neq; lia).
  replace (1 <? length ds + 1) with true by (symmetry; apply Nat.ltb_lt; lia).
  replace (1 <? length ds) with true by (symmetry; apply Nat.ltb_lt; lia).
  destruct (negb _); [done |].
  f_equal. apply for_each_ext. intros n Hn.
  apply elem_of_seq in Hn. destruct (pair_in_range n (length ds)) as [H0 H1]; [lia |].
  by rewrite !index_app_l.
Qed.

Lemma lookup_pair_path (dest : list iface) n :
  n ∈ seq 0 (length dest / 2) → ∃ t d, dest !! (2 * n) = Some t ∧ dest !! (2 * n + 1) = Some d.
Proof.
  intros Hn. apply elem_of_seq in Hn.
  destruct (pair_in_range n (length dest)) as [H0 H1]; [lia |].
  apply lookup_lt_is_Some in H0 as [t Ht], H1 as [d Hd]. eauto.
Qed.

Lemma pair_loop_panics b dest w :
  paths_are_strings dest = false → is_panic (pair_loop b dest w).1 = true.
Proof.
  intros H. apply forallb_false in H as (n & Hn & Hp).
  destruct (lookup_pair_path dest n Hn) as (t & d & Ht & Hd).
  rewrite Hd in Hp.
  apply (for_each_panics _ _ n); [done |].
  intros w'. unfold index. rewrite Ht, Hd.
  unfold mbind, M_bind, mret, M_ret.
  destruct d as [| ty v | ty p]; try done.
  by destruct ty.
Qed.

Lemma pair_loop_strings b dest :
  paths_are_strings dest = true →
  pair_loop b dest = for_each (pairs_of dest) (fun p => arrange b p.1 p.2).
Proof.
  intros H. unfold pair_loop, pairs_of. rewrite for_each_fmap.
  apply for_each_ext. intros n Hn.
  unfold paths_are_strings in H. rewrite forallb_forall in H.
  specialize (H n). rewrite <- list_elem_of_In in H. specialize (H Hn).
  destruct (lookup_pair_path dest n Hn) as (t & d & Ht & Hd).
  rewrite Hd in H. unfold index. rewrite Ht, Hd. simpl.
  destruct d as [| ty v | ty p]; try done.
  by destruct ty.
Qed.

Lemma Do_body_pairs b dest :
  Code (Unmarshal_QFError b) = "0000" → 1 < length dest →
  Do_body b dest = (_ ← pair_loop b dest; mret None).
Proof.
  intros Hcode Hlen. unfold Do_body. rewrite Hcode. simpl.
  replace (length dest =? 0) with false by (symmetry; apply Nat.eqb_neq; lia).
  by replace (1 <? length dest) with true by (symmetry; apply Nat.ltb_lt; lia).
Qed.

(** ** The envelope: a call whose exchange delivers a body *)

Ltac run_binds := unfold try, defer, mbind, M_bind, tell.

Section Exchange.

Variables (env : Env) (req : Request) (b : string).
Hypothesis body_read : response_body env req = Some b.

(** [Do] is then [Do_body] on [b], run after the calls of the exchange
    and followed by the deferred close. *)
Lemma Do_response_body dest w :
  ∃ pre, Do env req dest w
         = defer EvClose (Do_body b dest) (mkWorld (heap w) (trace w ++ pre)%list).
Proof.
  revert body_read. unfold response_body, Do, debug_dump. intros H.
  destruct (DefaultClient_Do env (httpRequest req)) as [e | res] eqn:Hdo; [done |].
  destruct (res_Body res) as [e | b'] eqn:Hbody; [done |].
  destruct (Debug (client req)).
  - destruct (DumpRequestOut env (httpRequest req) true) as [e | d1]; [done |].
    destruct (DumpResponse env res _) as [e | d2] eqn:Hd2; [done |].
    injection H as ->.
    exists [EvPrintln d1; EvRoundTrip (httpRequest req); EvPrintln d2].
    run_binds. simpl. rewrite Hd2, Hbody. simpl.
    by rewrite <- !app_assoc.
  - injection H as ->.
    exists [EvRoundTrip (httpRequest req)].
    run_binds. simpl. by rewrite Hbody.
Qed.

(** C1: whatever the destinations, when the body read decodes (a
    failure of the decoder ignored) into an envelope whose [respcd] is
    not [0000], [Do] returns that envelope as its error and the memory
    after the call is the memory before it: no destination is written. *)
Theorem Do_gateway_error dest w :
  Code (Unmarshal_QFError b) ≠ "0000" →
  (Do env req dest w).1 = Ok (Some (GatewayError (Unmarshal_QFError b)))
  ∧ heap (Do env req dest w).2 = heap w.
Proof.
  intros Hcode.
  destruct (Do_response_body dest w) as [pre ->].
  unfold defer, Do_body.
  destruct (String.eqb_spec (Code (Unmarshal_QFError b)) "0000") as [|_]; [done |].
  by simpl.
Qed.

(** C7: with one destination that is not a [*[]byte], after the gateway
    check [Do] hands the whole body and the destination to
    [json.Unmarshal]: it returns the decoder's error (nil when the
    decoder reports none) and the memory is as the decoder leaves it. *)
Theorem Do_single_destination d w :
  Code (Unmarshal_QFError b) = "0000" →
  (∀ x, d ≠ IPtr (TSlice TUint8) x) →
  ∃ e, (Unmarshal b d w).1 = Ok e
       ∧ (Do env req [d] w).1 = Ok e
       ∧ heap (Do env req [d] w).2 = heap (Unmarshal b d w).2.
Proof.
  intros Hcode Hd.
  destruct (Do_response_body [d] w) as [pre ->].
  destruct (Unmarshal_returns b d w) as (e & h & Hu).
  exists e. rewrite Hu. split; [done |]. simpl.
  unfold defer, Do_body. rewrite Hcode. simpl.
  unfold index. simpl.
  assert (Hrun : ∀ w', (mret d ≫= (fun d0 : iface =>
             match d0 with
             | IPtr (TSlice TUint8) x =>
                 match x with
                 | Some a =>
                     writing (fun h0 => Ok (<[a := bytes_value b]> h0)) ≫=
                       (fun _ => mret None)
                 | None => throw NilDereference
                 end
             | _ => Unmarshal b d0
             end)) w' = Unmarshal b d w').
  { intros w'. unfold mbind, M_bind, mret, M_ret.
    destruct d as [| ? ? | t x]; try done.
    destruct t as [| | | t' | |]; try done.
    destruct t'; try done. by destruct (Hd x). }
  rewrite Hrun.
  destruct w as [hw tw]. simpl in *.
  destruct (Unmarshal_trace b d hw tw (tw ++ pre)%list) as [H1 H2].
  rewrite Hu in H1, H2. simpl in *.
  destruct (Unmarshal b d (mkWorld hw (tw ++ pre)%list)) as [r w'] eqn:Hu'.
  simpl in *. by subst.
Qed.

(** C9, as the code has it: when the body is read and passes the
    gateway check and there is more than one argument, [Do] panics if
    the second element of some processed pair is not a string; if all
    of them are strings the assertion never panics: [Do] runs [arrange]
    on the pairs in order, returns nil when they all return and panics
    when one of them does. *)
Theorem Do_path_strings dest w :
  Code (Unmarshal_QFError b) = "0000" →
  1 < length dest →
  (paths_are_strings dest = false → is_panic (Do env req dest w).1 = true)
  ∧ (paths_are_strings dest = true →
     ∃ pre,
       let r := for_each (pairs_of dest) (fun p => arrange b p.1 p.2)
                  (mkWorld (heap w) (trace w ++ pre)) in
       (Do env req dest w).1
       = match r.1 with Ok _ => Ok None | Panicked p => Panicked p end
       ∧ heap (Do env req dest w).2 = heap r.2).
Proof.
  intros Hcode Hlen.
  destruct (Do_response_body dest w) as [pre ->].
  rewrite (Do_body_pairs b dest Hcode Hlen).
  unfold defer, mbind, M_bind. split.
  - intros H.
    pose proof (pair_loop_panics b dest (mkWorld (heap w) (trace w ++ pre)) H) as Hp.
    destruct (pair_loop b dest _) as [[[] | p] w']; done.
  - intros H. exists pre. rewrite <- (pair_loop_strings b dest H).
    destruct (pair_loop b dest _) as [[[] | p] w']; done.
Qed.

End Exchange.

(** ** The envelope on sample exchanges *)

Lemma Do_gateway_error_witness :
  let b := bytes_lit "{'respcd':'1145','resperr':'ERR','respmsg':'closed'}" in
  let w := mkWorld (<[1%N := VString "sentinel"]> ∅) [] in
  let dest := [IPtr TString (Some 1%N); IValue TString (VString "qrcode")] in
  (Do (answering b) (sample_request true) dest w).1
  = Ok (Some (GatewayError (Unmarshal_QFError b)))
  ∧ heap (Do (answering b) (sample_request true) dest w).2 = heap w.
Proof.
  intros b w dest.
  apply (Do_gateway_error (answering b) (sample_request true) b eq_refl dest w).
  vm_compute. discriminate.
Defined.

(** A body that is not JSON leaves the envelope zero-valued, which is
    not a success either. *)
Example not_json_gateway_error :
  let w := mkWorld (<[1%N := VString "sentinel"]> ∅) [] in
  let r := Do (answering "Bad Gateway") (sample_request false)
              [IPtr TString (Some 1%N)] w in
  r.1 = Ok (Some (GatewayError (mkQFError "" "" ""))) ∧ heap r.2 = heap w.
Proof. vm_compute. done. Qed.

Lemma Do_single_destination_witness :
  let b := bytes_lit "{'respcd':'0000','resperr':'','respmsg':'ok'}" in
  let w := mkWorld (<[1%N := zero QFError_type]> ∅) [] in
  let d := IPtr QFError_type (Some 1%N) in
  ∃ e, (Unmarshal b d w).1 = Ok e
       ∧ (Do (answering b) (sample_request false) [d] w).1 = Ok e
       ∧ heap (Do (answering b) (sample_request false) [d] w).2
         = heap (Unmarshal b d w).2.
Proof.
  intros b w d.
  apply (Do_single_destination (answering b) (sample_request false) b eq_refl d w).
  - vm_compute. reflexivity.
  - intros x. discriminate.
Defined.

(** On a destination of the wrong shape the decoder's error comes back. *)
Example mismatch_decode_error :
  let b := bytes_lit "{'respcd':'0000'}" in
  (Do (answering b) (sample_request false) [IPtr TString (Some 1%N)]
      (mkWorld ∅ [])).1
  = Ok (Some (UnmarshalTypeError "object")).
Proof. vm_compute. reflexivity. Qed.

Lemma Do_path_strings_witness :
  let b := bytes_lit "{'respcd':'0000','qrcode':'ABC'}" in
  let w := mkWorld ∅ [] in
  let dest := [IPtr TString (Some 1%N); IValue TString (VString "qrcode")] in
  (paths_are_strings dest = false
   → is_panic (Do (answering b) (sample_request false) dest w).1 = true)
  ∧ (paths_are_strings dest = true →
     ∃ pre,
       let r := for_each (pairs_of dest) (fun p => arrange b p.1 p.2)
                  (mkWorld (heap w) (trace w ++ pre)) in
       (Do (answering b) (sample_request false) dest w).1
       = match r.1 with Ok _ => Ok None | Panicked p => Panicked p end
       ∧ heap (Do (answering b) (sample_request false) dest w).2 = heap r.2).
Proof.
  intros b w dest.
  apply (Do_path_strings (answering b) (sample_request false) b eq_refl dest w).
  - vm_compute. reflexivity.
  - simpl. lia.
Defined.

(** C9 as stated fails twice.  With every path a string the call still
    panics when an [arrange] does: here the first argument is a string
    where a pointer is expected.  And with a path that is not a string
    the call does not panic when the gateway check fails first. *)
Lemma Do_path_strings_counterexample :
  (let b := bytes_lit "{'respcd':'0000','qrcode':'ABC'}" in
   let dest := [IValue TString (VString ""); IValue TString (VString "qrcode")] in
   1 < length dest ∧ paths_are_strings dest = true
   ∧ (Do (answering b) (sample_request false) dest (mkWorld ∅ [])).1
     = Panicked (ReflectPanic "reflect: Elem of invalid type"))
  ∧ (let b := bytes_lit "{'respcd':'1145','resperr':'ERR'}" in
     let dest := [IPtr TString (Some 1%N); IValue TBool (VBool true)] in
     1 < length dest ∧ paths_are_strings dest = false
     ∧ (Do (answering b) (sample_request false) dest (mkWorld ∅ [])).1
       = Ok (Some (GatewayError (mkQFError "1145" "ERR" "")))).
Proof. vm_compute. repeat split; lia. Qed.

(** The scalar example of the specification *)
Example arrange_two_scalars :
  let b := bytes_lit "{'respcd':'0000','qrcode':'ABC','syssn':'123'}" in
  let r := Do (answering b) (sample_request false)
              [IPtr TString (Some 1%N); IValue TString (VString "qrcode");
               IPtr TString (Some 2%N); IValue TString (VString "syssn")]
              (mkWorld ∅ []) in
  r.1 = Ok None
  ∧ heap r.2 !! 1%N = Some (VString "ABC")
  ∧ heap r.2 !! 2%N = Some (VString "123").
Proof. vm_compute. done. Qed.

(** ** An unpaired last argument *)

Lemma Do_unpaired env req ds x w :
  Nat.Even (length ds) → 2 ≤ length ds →
  Do env req (ds ++ [x]) w = Do env req ds w.
Proof.
  intros Heven Hlen. unfold Do, debug_dump, try, defer, mbind, M_bind, tell.
  destruct (DefaultClient_Do env (httpRequest req)) as [e | res];
    destruct (Debug (client req));
    try destruct (DumpRequestOut env (httpRequest req) true) as [e1 | d1];
    try done;
    try destruct (DumpResponse env res _) as [e2 | d2];
    try done;
    destruct (res_Body res) as [e3 | b]; try done;
    by rewrite Do_body_unpaired.
Qed.

(** The pairs of a list of even length are half as many as the
    arguments, the unpaired one not counted. *)
Lemma pairs_of_unpaired (ds : list iface) (x : iface) :
  Nat.Even (length ds) → length (pairs_of ds) = length (ds ++ [x]) / 2.
Proof.
  intros Heven. unfold pairs_of.
  rewrite length_fmap, length_seq, length_app. simpl length.
  by rewrite (half_snoc_even _ Heven).
Qed.

(** With more than one argument and every path a string, on a body that
    passes the gateway check [Do] is the loop of [arrange] over the
    pairs. *)
Lemma Do_runs_pairs env req b dest w :
  response_body env req = Some b →
  Code (Unmarshal_QFError b) = "0000" →
  1 < length dest →
  paths_are_strings dest = true →
  ∃ pre,
    let r := for_each (pairs_of dest) (fun p => arrange b p.1 p.2)
               (mkWorld (heap w) (trace w ++ pre)) in
    (Do env req dest w).1
    = match r.1 with Ok _ => Ok None | Panicked p => Panicked p end
    ∧ heap (Do env req dest w).2 = heap r.2.
Proof.
  intros Hb Hcode Hlen Hstrings.
  destruct (Do_response_body env req b Hb dest w) as [pre ->].
  rewrite (Do_body_pairs b dest Hcode Hlen).
  unfold defer, mbind, M_bind. exists pre.
  rewrite <- (pair_loop_strings b dest Hstrings).
  destruct (pair_loop b dest _) as [[[] | p] w']; done.
Qed.

(** C8: with an odd number of arguments, more than one, [Do] does what
    it does without the last one: the last argument changes neither the
    result nor the state, and when it points to a variable that no
    other argument points to, that variable holds after the call what
    it held before.  What [Do] does is to process the pairs before the
    last argument, half as many as there are arguments, rounded down:
    on a body that passes the gateway check, with every path a string,
    it runs [arrange] on these pairs in their order, returns nil when
    they all return and panics when one of them does, and the memory is
    the one they leave. *)
Theorem Do_unpaired_argument env req ds x w :
  Nat.Even (length ds) → 2 ≤ length ds →
  Do env req (ds ++ [x]) w = Do env req ds w
  ∧ (∀ a, target_addr x = Some a →
          (∀ d, d ∈ ds → target_addr d ≠ Some a) →
          heap (Do env req (ds ++ [x]) w).2 !! a = heap w !! a)
  ∧ length (pairs_of ds) = length (ds ++ [x]) / 2
  ∧ (∀ b, response_body env req = Some b →
          Code (Unmarshal_QFError b) = "0000" →
          paths_are_strings ds = true →
          ∃ pre,
            let r := for_each (pairs_of ds) (fun p => arrange b p.1 p.2)
                       (mkWorld (heap w) (trace w ++ pre)) in
            (Do env req (ds ++ [x]) w).1
            = match r.1 with Ok _ => Ok None | Panicked p => Panicked p end
            ∧ heap (Do env req (ds ++ [x]) w).2 = heap r.2).
Proof.
  intros Heven Hlen. split; [by apply Do_unpaired |]. split; [| split].
  - intros a _ Hds. rewrite Do_unpaired by done. by apply keeps_Do.
  - by apply pairs_of_unpaired.
  - intros b Hb Hcode Hstrings. rewrite Do_unpaired by done.
    apply (Do_runs_pairs env req b ds w Hb Hcode); [lia | done].
Qed.

Lemma Do_unpaired_argument_witness :
  let b := bytes_lit "{'respcd':'0000','qrcode':'ABC'}" in
  let w := mkWorld (<[2%N := VString "sentinel"]> ∅) [] in
  let ds := [IPtr TString (Some 1%N); IValue TString (VString "qrcode")] in
  let x := IPtr TString (Some 2%N) in
  Do (answering b) (sample_request false) (ds ++ [x]) w
  = Do (answering b) (sample_request false) ds w
  ∧ (∀ a, target_addr x = Some a →
          (∀ d, d ∈ ds → target_addr d ≠ Some a) →
          heap (Do (answering b) (sample_request false) (ds ++ [x]) w).2 !! a
          = heap w !! a)
  ∧ length (pairs_of ds) = length (ds ++ [x]) / 2
  ∧ (∀ b', response_body (answering b) (sample_request false) = Some b' →
           Code (Unmarshal_QFError b') = "0000" →
           paths_are_strings ds = true →
           ∃ pre,
             let r := for_each (pairs_of ds) (fun p => arrange b' p.1 p.2)
                        (mkWorld (heap w) (trace w ++ pre)) in
             (Do (answering b) (sample_request false) (ds ++ [x]) w).1
             = match r.1 with Ok _ => Ok None | Panicked p => Panicked p end
             ∧ heap (Do (answering b) (sample_request false) (ds ++ [x]) w).2
               = heap r.2).
Proof.
  intros b w ds x.
  apply (Do_unpaired_argument (answering b) (sample_request false) ds x w).
  - exists 1. reflexivity.
  - simpl. lia.
Defined.

(** The variable behind the unpaired pointer keeps its contents. *)
Example unpaired_sentinel_kept :
  let b := bytes_lit "{'respcd':'0000','qrcode':'ABC'}" in
  let w := mkWorld (<[2%N := VString "sentinel"]> ∅) [] in
  let r := Do (answering b) (sample_request false)
              [IPtr TString (Some 1%N); IValue TString (VString "qrcode");
               IPtr TString (Some 2%N)] w in
  r.1 = Ok None
  ∧ heap r.2 !! 1%N = Some (VString "ABC")
  ∧ heap r.2 !! 2%N = Some (VString "sentinel").
Proof. vm_compute. done. Qed.

(** ** Extraction: a key absent before the last segment *)

(** C5, where the code departs from it: a key absent at a segment that
    another name or a wildcard follows makes [collect] call [Len] or
    [MapIndex] on the zero Value, and [arrange] panics.  Here [data] is
    absent; [Do] panics with it on a body that passes the gateway check. *)
Theorem arrange_absent_segment_panics a w :
  arrange (bytes_lit "{'respcd':'0000'}") (IPtr (TSlice TString) (Some a))
          "data.*.missing_field" w
  = (Panicked (ValueError "reflect.Value.Len" Invalid_), w)
  ∧ (Do (answering (bytes_lit "{'respcd':'0000'}")) (sample_request false)
        [IPtr (TSlice TString) (Some a); IValue TString (VString "data.*.missing_field")]
        w).1
    = Panicked (ValueError "reflect.Value.Len" Invalid_).
Proof.
  assert (Hwalk : walk (bytes_lit "{'respcd':'0000'}") TString "data.*.missing_field" (heap w)
                  = Panicked (ValueError "reflect.Value.Len" Invalid_))
    by (vm_compute; reflexivity).
  pose proof (arrange_walk_panics _ (TSlice TString) a _ w _ Hwalk) as Harr.
  split; [done |].
  destruct (Do_response_body (answering (bytes_lit "{'respcd':'0000'}"))
              (sample_request false) (bytes_lit "{'respcd':'0000'}") eq_refl
              [IPtr (TSlice TString) (Some a); IValue TString (VString "data.*.missing_field")]
              w) as [pre ->].
  rewrite Do_body_pairs by (vm_compute; first [reflexivity | lia]).
  pose proof (arrange_walk_panics (bytes_lit "{'respcd':'0000'}") (TSlice TString) a
                "data.*.missing_field" (mkWorld (heap w) (trace w ++ pre)) _ Hwalk) as Harr'.
  rewrite pair_loop_strings by reflexivity.
  change (pairs_of _)
    with [(IPtr (TSlice TString) (Some a), "data.*.missing_field")].
  cbn [for_each fst snd]. unfold defer, mbind, M_bind. by rewrite Harr'.
Qed.


(** ** Queries *)

(** C10: with no merchant order number, [Query] returns the nil slice
    and the nil error and leaves the state as it is: the trace gets no
    round trip and no signature, the memory no write. *)
Theorem Query_nothing env c ctx w :
  Query env c ctx [] w = (Ok (VNil, None), w).
Proof. reflexivity. Qed.

(** The round trip of the specification: a successful response with a
    record decodes into a record that is paid; the request went out
    once, signed. *)
Example Query_paid :
  let b := bytes_lit "{'respcd':'0000','data':[{'respcd':'0000','out_trade_no':'T1','txamt':'100'}]}" in
  let r := Query (answering b) (sample_client false) Background ["T1"] (mkWorld ∅ []) in
  ∃ record sign round_trip,
    r.1 = Ok (VSlice [record], None) ∧ Paid record = true
    ∧ trace r.2 = [EvSign sign; EvRoundTrip round_trip; EvClose]
    ∧ req_Body round_trip = Some "out_trade_no=T1"
    ∧ heap r.2 = ∅.
Proof. vm_compute. eexists _, _, _. repeat split. Qed.

(** * Further properties *)

(** ** The signer: the shape of a signature *)

Lemma le_bytes_bounds n x : Forall (fun b => (0 ≤ b < 256)%Z) (MD5.le_bytes n x).
Proof.
  unfold MD5.le_bytes. apply Forall_fmap, Forall_forall. intros i _. simpl.
  apply Z.mod_pos_bound. lia.
Qed.

Lemma MD5_Sum_bytes data :
  length (MD5.Sum data) = 16 ∧ Forall (fun b => (0 ≤ b < 256)%Z) (MD5.Sum data).
Proof.
  unfold MD5.Sum.
  destruct (foldl MD5.block MD5.init _) as [a b c d]. split.
  - rewrite !length_app. unfold MD5.le_bytes. by rewrite !length_fmap, !length_seq.
  - repeat apply Forall_app_2; apply le_bytes_bounds.
Qed.

Lemma hex_digit_upper n : (0 ≤ n < 16)%Z → is_upper_hex (hex_digit n) = true.
Proof.
  intros H. rewrite <- (Z2Nat.id n) by lia.
  assert (Hn : Z.to_nat n < 16) by lia.
  generalize dependent (Z.to_nat n). clear. intros k Hk.
  do 16 (destruct k as [| k]; [by vm_compute |]). lia.
Qed.

Lemma Sprintf_X_shape bs :
  Forall (fun b => (0 ≤ b < 256)%Z) bs →
  String.length (Sprintf_X bs) = 2 * length bs
  ∧ forallb is_upper_hex (list_ascii_of_string (Sprintf_X bs)) = true.
Proof.
  induction 1 as [| b bs Hb _ [IHlen IHhex]]; [done |].
  cbn [Sprintf_X String.length list_ascii_of_string forallb length].
  rewrite IHlen, IHhex. split; [lia |].
  rewrite !hex_digit_upper; [done | |].
  - apply Z.mod_pos_bound. lia.
  - split; [apply Z.div_pos; lia | apply Z.div_lt_upper_bound; lia].
Qed.

(** X1: A signature is 32 characters long and every character is a digit
    or a letter from [A] to [F]. *)
Theorem GenerateSign_shape c (payload : Values) order :
  String.length (GenerateSign c payload order) = 32
  ∧ forallb is_upper_hex (list_ascii_of_string (GenerateSign c payload order)) = true.
Proof.
  unfold GenerateSign. cbv zeta.
  destruct (MD5_Sum_bytes (Join (sort_Strings
    ((fun k => k +:+ "=" +:+ Values_Get payload k) <$> order)) "&" +:+ Key c))
    as [Hlen Hbytes].
  destruct (Sprintf_X_shape _ Hbytes) as [H1 H2]. by rewrite H1, Hlen.
Qed.

(** ** The signer: keys with several values *)

Lemma Values_Get_first_values (payload : Values) k :
  Values_Get (first_values payload) k = Values_Get payload k.
Proof.
  unfold Values_Get, first_values. rewrite lookup_fmap.
  by destruct (payload !! k) as [[| x vs] |].
Qed.

(** X2: Only the first value of a key is signed: further values of the key
    change nothing, and a key without values is signed like a key with
    the empty value. *)
Theorem GenerateSign_first_values c (payload : Values) order :
  GenerateSign c payload order = GenerateSign c (first_values payload) order.
Proof.
  unfold GenerateSign. cbv zeta. do 5 f_equal.
  apply list_fmap_ext. intros _ k _. by rewrite Values_Get_first_values.
Qed.

(** ** Computations that make no call outside *)

Lemma quiet_ret {A} (x : A) : quiet (mret x : M A).
Proof. by intros w. Qed.

Lemma quiet_throw {A} p : quiet (throw p : M A).
Proof. by intros w. Qed.

Lemma quiet_reading {A} (f : Heap → result A) : quiet (reading f).
Proof. by intros w. Qed.

Lemma quiet_writing (f : Heap → result Heap) : quiet (writing f).
Proof. intros w. unfold writing. by destruct (f (heap w)). Qed.

Lemma quiet_bind {A B} (m : M A) (f : A → M B) :
  quiet m → (∀ x, quiet (f x)) → quiet (m ≫= f).
Proof.
  intros Hm Hf w. unfold mbind, M_bind. specialize (Hm w).
  destruct (m w) as [[x | p] w']; simpl in *; [| done].
  by rewrite (Hf x w').
Qed.

Lemma quiet_for_each {A} (l : list A) (body : A → M unit) :
  (∀ x, quiet (body x)) → quiet (for_each l body).
Proof.
  intros H. induction l as [| x l IH]; [apply quiet_ret |].
  cbn [for_each]. apply quiet_bind; [apply H | by intros _].
Qed.

Lemma quiet_arrange data target key : quiet (arrange data target key).
Proof.
  unfold arrange.
  apply quiet_bind; [apply quiet_reading |]. intros baseType.
  apply quiet_bind; [apply quiet_reading |]. intros items.
  destruct (negb _); [apply quiet_ret |].
  apply quiet_for_each. intros item. unfold arrange_item.
  destruct (Kind_eqb _ _); [| apply quiet_writing].
  apply quiet_bind; [apply quiet_reading | intros s; apply quiet_writing].
Qed.

Lemma quiet_Unmarshal data d : quiet (Unmarshal data d).
Proof.
  intros w. destruct (Unmarshal_returns data d w) as (e & h & ->). done.
Qed.

Lemma quiet_Do_body b dest : quiet (Do_body b dest).
Proof.
  unfold Do_body.
  destruct (negb _); [apply quiet_ret |].
  destruct (length dest =? 0); [apply quiet_ret |].
  assert (Hindex : ∀ i, quiet (index dest i)).
  { intros i. unfold index. destruct (dest !! i); [apply quiet_ret | apply quiet_throw]. }
  destruct (1 <? length dest).
  - apply quiet_bind; [| intros _; apply quiet_ret].
    apply quiet_for_each. intros n.
    apply quiet_bind; [apply Hindex |]. intros target.
    apply quiet_bind; [apply Hindex |]. intros path.
    apply quiet_bind; [| intros key; apply quiet_arrange].
    unfold assert_string.
    destruct path as [| [] ? | ? ?]; first [apply quiet_ret | apply quiet_throw].
  - apply quiet_bind; [apply Hindex |]. intros d.
    destruct d as [| ? ? | t x]; try apply quiet_Unmarshal.
    destruct t as [| | | t' | |]; try apply quiet_Unmarshal.
    destruct t'; try apply quiet_Unmarshal.
    destruct x as [a' |]; [| apply quiet_throw].
    apply quiet_bind; [apply quiet_writing | intros _; apply quiet_ret].
Qed.

(** ** The path extractor on a pointer to a variable *)

(** X3: On a pointer to a variable [arrange] panics when the walk panics
    and only then: storing the items never fails.  A panic leaves the
    state as it was. *)
Theorem arrange_panics_with_walk data t a key w :
  (arrange data (IPtr t (Some a)) key w).1
  = match walk data (base_type t) key (heap w) with
    | Ok _ => Ok tt
    | Panicked p => Panicked p
    end
  ∧ (is_panic (arrange data (IPtr t (Some a)) key w).1 = true →
     (arrange data (IPtr t (Some a)) key w).2 = w).
Proof.
  destruct (walk data (base_type t) key (heap w)) as [items | p] eqn:Hwalk.
  - assert (Hok : (arrange data (IPtr t (Some a)) key w).1 = Ok tt).
    { destruct t as [| | | et | et | fs]; cbn [base_type] in Hwalk;
        try (by rewrite (arrange_slice _ _ _ _ _ _ Hwalk));
        (erewrite arrange_scalar; [done | discriminate | exact Hwalk]). }
    rewrite Hok. done.
  - by rewrite (arrange_walk_panics _ _ _ _ _ _ Hwalk).
Qed.

(** X4: On a pointer to a slice variable, when the walk returns, the
    elements after the call are the elements before it followed by the
    values of the collected items, in the order of the walk; an absent
    item gives the zero value of the element type.  No other variable
    is written and no call is made outside. *)
Theorem arrange_appends data et a key w items :
  walk data et key (heap w) = Ok items →
  let r := arrange data (IPtr (TSlice et) (Some a)) key w in
  r.1 = Ok tt
  ∧ slice_elems (load (heap r.2) (TSlice et) a)
    = slice_elems (load (heap w) (TSlice et) a) ++ (item_value et <$> items)
  ∧ (∀ a', a' ≠ a → heap r.2 !! a' = heap w !! a')
  ∧ trace r.2 = trace w.
Proof.
  intros Hwalk r. unfold r. rewrite (arrange_slice _ _ _ _ _ _ Hwalk).
  destruct items as [| item items]; simpl.
  - by rewrite app_nil_r.
  - repeat split; [| by intros a' Ha; rewrite lookup_insert_ne].
    unfold load at 1. by rewrite lookup_insert_eq.
Qed.

Lemma arrange_appends_witness :
  let w := mkWorld (<[1%N := VSlice [VString "T0"]]> ∅) [] in
  let items := [Val TString (VString "T1"); Val TString (VString "T2")] in
  let r := arrange wildcard_doc (IPtr (TSlice TString) (Some 1%N))
             "data.*.out_trade_no" w in
  r.1 = Ok tt
  ∧ slice_elems (load (heap r.2) (TSlice TString) 1%N)
    = slice_elems (load (heap w) (TSlice TString) 1%N) ++ (item_value TString <$> items)
  ∧ (∀ a', a' ≠ 1%N → heap r.2 !! a' = heap w !! a')
  ∧ trace r.2 = trace w.
Proof.
  intros w items.
  apply (arrange_appends wildcard_doc TString 1%N "data.*.out_trade_no" w items).
  vm_compute. reflexivity.
Defined.

(** X5: [arrange] writes no variable but the one its target points to, and
    makes no call outside: with a nil pointer or a target that is not a
    pointer the memory after the call, whatever its outcome, is the
    memory before it. *)
Theorem arrange_writes_target_only data target key w :
  (∀ a, target_addr target ≠ Some a →
        heap (arrange data target key w).2 !! a = heap w !! a)
  ∧ (target_addr target = None → heap (arrange data target key w).2 = heap w)
  ∧ trace (arrange data target key w).2 = trace w.
Proof.
  split; [| split].
  - intros a Ha. by apply keeps_arrange.
  - intros Hnone. apply map_eq. intros a. apply keeps_arrange. by rewrite Hnone.
  - apply quiet_arrange.
Qed.

(** ** Paths: empty segments *)

Lemma gather_ext h x rec rec' acc l :
  (∀ e, rec e = rec' e) →
  foldl (gather h x rec) acc l = foldl (gather h x rec') acc l.
Proof.
  intros Hrec. revert acc. induction l as [| i l IH]; intros acc; [done |].
  cbn [foldl]. rewrite IH. f_equal. unfold gather.
  destruct acc as [out |]; [| done]. cbn [mbind result_bind].
  destruct (Value_Index h x i) as [e |]; [| done]. cbn [mbind result_bind].
  by rewrite Hrec.
Qed.

Lemma shape_named keys t :
  shape keys t = shape (filter (fun k => k ≠ "") keys) t.
Proof.
  induction keys as [| key k IH]; [done |].
  rewrite filter_cons. unfold shape in *. cbn [foldr].
  destruct (decide (key ≠ "")) as [Hne | Heq].
  - cbn [foldr]. by rewrite IH.
  - apply dec_stable in Heq as ->. by rewrite IH.
Qed.

Lemma collect_named h keys :
  ∀ x, collect h x keys = collect h x (filter (fun k => k ≠ "") keys).
Proof.
  induction keys as [| key k IH]; intros x; [done |].
  rewrite filter_cons. cbn [collect].
  destruct (decide (key ≠ "")) as [Hne | Heq].
  - cbn [collect]. destruct (String.eqb key "*").
    + destruct (Value_Len h x) as [n |]; [| done]. cbn [mbind result_bind].
      by apply gather_ext.
    + destruct (negb _); [| done].
      destruct (Value_MapIndex h x key) as [x' |]; [| done]. apply IH.
  - apply dec_stable in Heq as ->. apply IH.
Qed.

(** [arrange] sees a path through its segments that are not empty. *)
Lemma arrange_named data target key w :
  arrange data target key w
  = (baseType ← reading (fun _ => Type_Elem (TypeOf target));
     let baseType := base_type baseType in
     let typ := shape (named_segments key) baseType in
     let d := (Unmarshal_value data typ (zero typ)).1 in
     items ← reading (fun h => collect h (Val typ d) (named_segments key));
     let v := Indirect (ValueOf target) in
     if negb (IsValid v) then mret tt
     else for_each items (arrange_item baseType v)) w.
Proof.
  unfold arrange, named_segments, mbind, M_bind, reading. cbv zeta.
  destruct (Type_Elem (TypeOf target)) as [baseType |]; [| done].
  fold (base_type baseType).
  by rewrite <- shape_named, <- collect_named.
Qed.

(** X6: Empty segments of a path are passed over: two paths with the same
    segments once the empty ones are dropped give the same extraction. *)
Theorem arrange_empty_segments data target key key' w :
  named_segments key = named_segments key' →
  arrange data target key w = arrange data target key' w.
Proof. intros H. by rewrite !arrange_named, H. Qed.

Lemma arrange_empty_segments_witness :
  let w := mkWorld ∅ [] in
  arrange wildcard_doc (IPtr (TSlice TString) (Some 1%N)) ".data..*.out_trade_no." w
  = arrange wildcard_doc (IPtr (TSlice TString) (Some 1%N)) "data.*.out_trade_no" w.
Proof.
  intros w. apply arrange_empty_segments. vm_compute. reflexivity.
Defined.

Lemma walk_named data t key h :
  walk data t key h
  = collect h (Val (shape (named_segments key) t)
                 (Unmarshal_value data (shape (named_segments key) t)
                    (zero (shape (named_segments key) t))).1)
      (named_segments key).
Proof.
  unfold walk, named_segments. cbv zeta. by rewrite <- shape_named, <- collect_named.
Qed.

(** X7: A path without a named segment (the empty path, or dots only)
    addresses the whole document: a variable that is not a slice gets
    the document decoded as a value of its type, starting from the zero
    value and not from what the variable held. *)
Theorem arrange_whole_document data t a key w :
  named_segments key = [] → kind_of t ≠ Slice_ →
  arrange data (IPtr t (Some a)) key w
  = (Ok tt, mkWorld (<[a := (Unmarshal_value data t (zero t)).1]> (heap w)) (trace w)).
Proof.
  intros Hkey Hk.
  assert (Hwalk : walk data t key (heap w)
                  = Ok [Val t (Unmarshal_value data t (zero t)).1])
    by (by rewrite walk_named, Hkey).
  by rewrite (arrange_scalar _ _ _ _ _ _ Hk Hwalk).
Qed.

Lemma arrange_whole_document_witness :
  let data := bytes_lit "{'a':'x','b':'y'}" in
  let w := mkWorld (<[1%N := VMap [("old", VString "z")]]> ∅) [] in
  arrange data (IPtr (TMap TString) (Some 1%N)) "" w
  = (Ok tt, mkWorld (<[1%N := (Unmarshal_value data (TMap TString)
                                 (zero (TMap TString))).1]> (heap w)) (trace w)).
Proof.
  intros data w. apply (arrange_whole_document data (TMap TString) 1%N "" w).
  - vm_compute. reflexivity.
  - discriminate.
Defined.

(** ** Paths of one name *)

Lemma rev_app_append s1 s2 s3 :
  String.rev_app s1 s2 +:+ s3 = String.rev_app s1 (s2 +:+ s3).
Proof. revert s2. induction s1 as [| c s1 IH]; intros s2; [done |]. apply IH. Qed.

Lemma Split_go_no_dot cur s :
  no_dot s = true → Split_go cur s "." = [String.rev cur +:+ s].
Proof.
  revert cur. induction s as [| c s IH]; intros cur H.
  - simpl. unfold String.rev. by rewrite rev_app_append.
  - unfold no_dot in H. simpl in H. apply andb_true_iff in H as [Hc Hs].
    cbn [Split_go]. destruct (Ascii.eqb c "."); [done |].
    rewrite (IH _ Hs). unfold String.rev. simpl.
    by rewrite !rev_app_append.
Qed.

Lemma Split_no_dot key : no_dot key = true → Split key "." = [key].
Proof. intros H. unfold Split. by rewrite Split_go_no_dot. Qed.

(** X8: A path of one name (no dot, not the wildcard, not empty) never
    makes [arrange] panic on a pointer to a variable: a variable that
    is not a slice gets the member of that name of the top-level
    object, decoded as a value of its type, and the zero value of its
    type when the document has no such member, is not an object or is
    not well-formed. *)
Theorem arrange_one_name data t a key w :
  no_dot key = true → key ≠ "*" → key ≠ "" → kind_of t ≠ Slice_ →
  arrange data (IPtr t (Some a)) key w
  = (Ok tt,
     mkWorld (<[a := default (zero t)
                       (entry_lookup
                          (map_entries (Unmarshal_value data (TMap t) VNil).1) key)]>
                (heap w))
             (trace w)).
Proof.
  intros Hdot Hstar Hempty Hk.
  assert (Hwalk : walk data t key (heap w)
                  = Ok [match entry_lookup
                                (map_entries (Unmarshal_value data (TMap t) VNil).1) key with
                        | Some e => Val t e
                        | None => Invalid
                        end]).
  { unfold walk. rewrite (Split_no_dot _ Hdot). cbv zeta. unfold shape.
    cbn [foldr collect].
    apply String.eqb_neq in Hstar, Hempty. rewrite Hstar, Hempty. cbn [negb].
    unfold Value_MapIndex. cbn [contents zero mbind result_bind].
    by destruct (entry_lookup _ key). }
  rewrite (arrange_scalar _ _ _ _ _ _ Hk Hwalk). cbn [last].
  by destruct (entry_lookup _ key).
Qed.

Lemma arrange_one_name_witness :
  let data := bytes_lit "{'qrcode':'ABC','syssn':'123'}" in
  let w := mkWorld (<[1%N := VString "sentinel"]> ∅) [] in
  arrange data (IPtr TString (Some 1%N)) "syssn" w
  = (Ok tt,
     mkWorld (<[1%N := default (zero TString)
                         (entry_lookup
                            (map_entries (Unmarshal_value data (TMap TString) VNil).1)
                            "syssn")]> (heap w))
             (trace w)).
Proof.
  intros data w. apply (arrange_one_name data TString 1%N "syssn" w).
  - reflexivity.
  - discriminate.
  - discriminate.
  - discriminate.
Defined.

(** In the witness the variable ends up holding [123]; with a name the
    document lacks it ends up holding the empty string. *)
Example one_name_sample_values :
  let data := bytes_lit "{'qrcode':'ABC','syssn':'123'}" in
  let w := mkWorld (<[1%N := VString "sentinel"]> ∅) [] in
  heap (arrange data (IPtr TString (Some 1%N)) "syssn" w).2 !! 1%N = Some (VString "123")
  ∧ heap (arrange data (IPtr TString (Some 1%N)) "udid" w).2 !! 1%N = Some (VString "")
  ∧ heap (arrange "<html>" (IPtr TString (Some 1%N)) "udid" w).2 !! 1%N
    = Some (VString "").
Proof. vm_compute. done. Qed.

(** ** The envelope: failures of the exchange *)

(** X9: When the body is not read (the dump of the request, the exchange,
    the dump of the response or the read of the body fails) [Do]
    returns an error, never nil and never a panic, and the memory is
    left as it was, whatever the destinations. *)
Theorem Do_exchange_fails env req dest w :
  response_body env req = None →
  ∃ err, (Do env req dest w).1 = Ok (Some err)
         ∧ heap (Do env req dest w).2 = heap w.
Proof.
  unfold response_body, Do, debug_dump. intros H. run_binds.
  destruct (Debug (client req)).
  - destruct (DumpRequestOut env (httpRequest req) true) as [e1 | d1];
      [by exists e1 |]. simpl.
    destruct (DefaultClient_Do env (httpRequest req)) as [e | res];
      [by exists e |]. simpl.
    destruct (res_Body res) as [e3 | b].
    + destruct (DumpResponse env res _) as [e2 | d2]; [by exists e2 |].
      simpl. by exists e3.
    + destruct (DumpResponse env res _) as [e2 | d2]; [by exists e2 | done].
  - simpl. destruct (DefaultClient_Do env (httpRequest req)) as [e | res];
      [by exists e |]. simpl.
    destruct (res_Body res) as [e3 | b]; [by exists e3 | done].
Qed.

Lemma Do_exchange_fails_witness :
  let env := mkEnv (fun ctx method url body => inr (mkHttpRequest ctx method url ∅ body))
                   (fun _ => inl (ExternalError "context deadline exceeded"))
                   (fun _ _ => inr "request") (fun _ _ => inr "response")
                   (fun _ _ => inl (ExternalError "json: unsupported")) in
  let w := mkWorld (<[1%N := VString "sentinel"]> ∅) [] in
  let dest := [IPtr TString (Some 1%N); IValue TString (VString "qrcode")] in
  ∃ err, (Do env (sample_request true) dest w).1 = Ok (Some err)
         ∧ heap (Do env (sample_request true) dest w).2 = heap w.
Proof.
  intros env w dest. apply (Do_exchange_fails env (sample_request true) dest w).
  reflexivity.
Defined.

(** X10: With a debugging client, when the dump of the request fails the
    request is not sent: [Do] returns the error of the dump and the
    state, the list of calls made outside included, is unchanged. *)
Theorem Do_request_dump_fails env req dest w err :
  request_dump env req = inl err →
  Do env req dest w = (Ok (Some err), w).
Proof.
  unfold request_dump, Do, debug_dump. intros H.
  destruct (Debug (client req)); [| done].
  destruct (DumpRequestOut env (httpRequest req) true) as [e | d]; [| done].
  by injection H as ->.
Qed.

Lemma Do_request_dump_fails_witness :
  let env := mkEnv (fun ctx method url body => inr (mkHttpRequest ctx method url ∅ body))
                   (fun _ => inr (mkHttpResponse ∅ (inr "{}")))
                   (fun _ _ => inl (ExternalError "http: ContentLength with Body length 0"))
                   (fun _ _ => inr "response")
                   (fun _ _ => inl (ExternalError "json: unsupported")) in
  let w := mkWorld ∅ [] in
  Do env (sample_request true) [] w
  = (Ok (Some (ExternalError "http: ContentLength with Body length 0")), w).
Proof.
  intros env w. apply (Do_request_dump_fails env (sample_request true) [] w).
  reflexivity.
Defined.

(** ** The envelope: the calls made outside *)

Lemma defer_trace {A} e (m : M A) w :
  trace (defer e m w).2 = trace (m w).2 ++ [e].
Proof. unfold defer. by destruct (m w). Qed.

Lemma quiet_try_Do_body r dest : quiet (try r (fun b => Do_body b dest)).
Proof. destruct r; [apply quiet_ret | apply quiet_Do_body]. Qed.

Lemma debug_dump_trace debug dump k w :
  quiet k →
  ∃ mid, trace (debug_dump debug dump k w).2 = trace w ++ mid
         ∧ (mid = [] ∨ ∃ text, debug = true ∧ mid = [EvPrintln text]).
Proof.
  intros Hk. unfold debug_dump. destruct debug.
  - destruct dump as [e | text]; simpl.
    + exists []. by rewrite app_nil_r; split; [| left].
    + exists [EvPrintln text]. split; [| right; eauto].
      unfold mbind, M_bind, tell. apply Hk.
  - exists []. rewrite app_nil_r. split; [apply Hk | by left].
Qed.

(** X11: When the request goes out and a response comes back whose
    dump, if one is made, does not include the body (the client is not
    debugging, or the content type does not mention json), [Do] makes
    one round trip and the body is closed once, by [Do], as the last
    thing it does: also when the read of the body fails, when the
    gateway reports an error and when an extraction panics.  Between
    the two only a debugging client logs, the dump of the response. *)
Theorem Do_one_round_trip_one_close env req dest w logs res :
  request_dump env req = inr logs →
  DefaultClient_Do env (httpRequest req) = inr res →
  dumps_body req res = false →
  ∃ mid, trace (Do env req dest w).2
         = trace w ++ logs ++ [EvRoundTrip (httpRequest req)] ++ mid ++ [EvClose]
         ∧ (mid = [] ∨ ∃ text, Debug (client req) = true ∧ mid = [EvPrintln text]).
Proof.
  intros Hdump Hres _.
  assert (Hrest : ∀ w0,
    ∃ mid, trace ((_ ← tell (EvRoundTrip (httpRequest req));
                   try (DefaultClient_Do env (httpRequest req)) (fun res =>
                   defer EvClose (
                     debug_dump (Debug (client req))
                       (DumpResponse env res
                          (Contains (Header_Get (res_Header res) "Content-Type") "json"))
                       (try (res_Body res) (fun b => Do_body b dest))))) w0).2
           = trace w0 ++ [EvRoundTrip (httpRequest req)] ++ mid ++ [EvClose]
           ∧ (mid = [] ∨ ∃ text, Debug (client req) = true ∧ mid = [EvPrintln text])).
  { intros w0. rewrite Hres. unfold mbind, M_bind, tell, try. rewrite defer_trace.
    destruct (debug_dump_trace (Debug (client req))
                (DumpResponse env res
                   (Contains (Header_Get (res_Header res) "Content-Type") "json"))
                (try (res_Body res) (fun b => Do_body b dest))
                (mkWorld (heap w0) (trace w0 ++ [EvRoundTrip (httpRequest req)]))
                (quiet_try_Do_body _ _)) as (mid & Hmid & Hshape).
    exists mid. unfold try in Hmid. rewrite Hmid. simpl.
    split; [by rewrite <- !app_assoc | done]. }
  unfold request_dump in Hdump. unfold Do, debug_dump at 1.
  destruct (Debug (client req)) eqn:Hdebug.
  - destruct (DumpRequestOut env (httpRequest req) true) as [e | d1]; [done |].
    injection Hdump as <-. unfold try at 1, mbind at 1, M_bind at 1, tell at 1.
    destruct (Hrest (mkWorld (heap w) (trace w ++ [EvPrintln d1]))) as (mid & Hmid & Hshape).
    exists mid. rewrite Hmid. simpl. split; [by rewrite <- !app_assoc | done].
  - injection Hdump as <-.
    destruct (Hrest w) as (mid & Hmid & Hshape).
    exists mid. by rewrite Hmid.
Qed.

Lemma Do_one_round_trip_one_close_witness :
  let env := mkEnv (fun ctx method url body => inr (mkHttpRequest ctx method url ∅ body))
                   (fun _ => inr (mkHttpResponse (Header_Set ∅ "Content-Type" "text/html")
                                    (inr "Bad Gateway")))
                   (fun _ _ => inr "request")
                   (fun _ _ => inr "response")
                   (fun _ _ => inl (ExternalError "json: unsupported")) in
  let req := sample_request true in
  let dest := [IPtr (TSlice TString) (Some 1%N); IValue TString (VString "data.*")] in
  let w := mkWorld ∅ [] in
  ∃ mid, trace (Do env req dest w).2
         = trace w ++ [EvPrintln "request"] ++ [EvRoundTrip (httpRequest req)]
           ++ mid ++ [EvClose]
         ∧ (mid = [] ∨ ∃ text, Debug (client req) = true ∧ mid = [EvPrintln text]).
Proof.
  intros env req dest w.
  apply (Do_one_round_trip_one_close env req dest w [EvPrintln "request"]
           (mkHttpResponse (Header_Set ∅ "Content-Type" "text/html") (inr "Bad Gateway"))).
  - reflexivity.
  - reflexivity.
  - vm_compute. reflexivity.
Defined.

(** The calls of the witness, in full *)
Example round_trip_sample :
  let env := mkEnv (fun ctx method url body => inr (mkHttpRequest ctx method url ∅ body))
                   (fun _ => inr (mkHttpResponse (Header_Set ∅ "Content-Type" "text/html")
                                    (inr "Bad Gateway")))
                   (fun _ _ => inr "request")
                   (fun _ _ => inr "response")
                   (fun _ _ => inl (ExternalError "json: unsupported")) in
  let req := sample_request true in
  trace (Do env req [] (mkWorld ∅ [])).2
  = [EvPrintln "request"; EvRoundTrip (httpRequest req); EvPrintln "response"; EvClose].
Proof. vm_compute. reflexivity. Qed.

(** ** The envelope: no destination, a byte slice, a body that is not JSON *)

(** X12: Without a destination [Do] only checks the envelope: on a body that
    passes the gateway check it returns nil and writes nothing. *)
Theorem Do_no_destination env req b w :
  response_body env req = Some b →
  Code (Unmarshal_QFError b) = "0000" →
  (Do env req [] w).1 = Ok None ∧ heap (Do env req [] w).2 = heap w.
Proof.
  intros Hb Hcode. destruct (Do_response_body env req b Hb [] w) as [pre ->].
  unfold defer, Do_body. by rewrite Hcode.
Qed.

Lemma Do_no_destination_witness :
  let b := bytes_lit "{'respcd':'0000','respmsg':'ok'}" in
  let w := mkWorld (<[1%N := VString "sentinel"]> ∅) [] in
  (Do (answering b) (sample_request false) [] w).1 = Ok None
  ∧ heap (Do (answering b) (sample_request false) [] w).2 = heap w.
Proof.
  intros b w. apply (Do_no_destination (answering b) (sample_request false) b w).
  - reflexivity.
  - vm_compute. reflexivity.
Defined.

(** X13: With a pointer to a byte slice as the only destination, a body that
    passes the gateway check is stored as it came, byte for byte, in
    place of what the slice held, and [Do] returns nil; no other
    variable is written.  A nil pointer to a byte slice makes the call
    panic. *)
Theorem Do_byte_slice env req b w :
  response_body env req = Some b →
  Code (Unmarshal_QFError b) = "0000" →
  (∀ a, (Do env req [IPtr (TSlice TUint8) (Some a)] w).1 = Ok None
        ∧ heap (Do env req [IPtr (TSlice TUint8) (Some a)] w).2
          = <[a := VSlice (VUint8 <$> bytes_of b)]> (heap w))
  ∧ (Do env req [IPtr (TSlice TUint8) None] w).1 = Panicked NilDereference.
Proof.
  intros Hb Hcode. split; [intros a |].
  - destruct (Do_response_body env req b Hb [IPtr (TSlice TUint8) (Some a)] w)
      as [pre ->].
    unfold defer, Do_body. by rewrite Hcode.
  - destruct (Do_response_body env req b Hb [IPtr (TSlice TUint8) None] w)
      as [pre ->].
    unfold defer, Do_body. by rewrite Hcode.
Qed.

Lemma Do_byte_slice_witness :
  let b := bytes_lit "{'respcd':'0000','respmsg':'ok'}" in
  let w := mkWorld (<[1%N := VSlice [VUint8 7]]> ∅) [] in
  (∀ a, (Do (answering b) (sample_request false) [IPtr (TSlice TUint8) (Some a)] w).1
        = Ok None
        ∧ heap (Do (answering b) (sample_request false)
                   [IPtr (TSlice TUint8) (Some a)] w).2
          = <[a := VSlice (VUint8 <$> bytes_of b)]> (heap w))
  ∧ (Do (answering b) (sample_request false) [IPtr (TSlice TUint8) None] w).1
    = Panicked NilDereference.
Proof.
  intros b w. apply (Do_byte_slice (answering b) (sample_request false) b w).
  - reflexivity.
  - vm_compute. reflexivity.
Defined.

Lemma Unmarshal_QFError_syntax b :
  JSON.parse b = None → Unmarshal_QFError b = mkQFError "" "" "".
Proof. intros H. unfold Unmarshal_QFError, Unmarshal_value. by rewrite H. Qed.

(** X14: A body that is not well-formed JSON (an HTML error page, an empty
    body) is reported as a gateway error whose three fields are empty,
    not as a syntax error, whatever the destinations; nothing is
    written. *)
Theorem Do_body_not_json env req b dest w :
  response_body env req = Some b →
  JSON.parse b = None →
  (Do env req dest w).1 = Ok (Some (GatewayError (mkQFError "" "" "")))
  ∧ heap (Do env req dest w).2 = heap w.
Proof.
  intros Hb Hparse. destruct (Do_response_body env req b Hb dest w) as [pre ->].
  unfold defer, Do_body. by rewrite (Unmarshal_QFError_syntax b Hparse).
Qed.

Lemma Do_body_not_json_witness :
  let b := "<html><body>502 Bad Gateway</body></html>" in
  let w := mkWorld (<[1%N := zero QFError_type]> ∅) [] in
  let dest := [IPtr QFError_type (Some 1%N)] in
  (Do (answering b) (sample_request false) dest w).1
  = Ok (Some (GatewayError (mkQFError "" "" "")))
  ∧ heap (Do (answering b) (sample_request false) dest w).2 = heap w.
Proof.
  intros b w dest.
  apply (Do_body_not_json (answering b) (sample_request false) b dest w).
  - reflexivity.
  - vm_compute. reflexivity.
Defined.

(** ** The envelope: what is never written *)

(** X15: [Do] writes through its arguments only: a variable that no argument
    points to holds after the call what it held before, whether the
    call returns nil, returns an error or panics. *)
Theorem Do_writes_destinations_only env req dest w a :
  (∀ d, d ∈ dest → target_addr d ≠ Some a) →
  heap (Do env req dest w).2 !! a = heap w !! a.
Proof. intros H. by apply keeps_Do. Qed.

Lemma Do_writes_destinations_only_witness :
  let b := bytes_lit "{'respcd':'0000','qrcode':'ABC'}" in
  let w := mkWorld (<[2%N := VString "sentinel"]> ∅) [] in
  let dest := [IPtr TString (Some 1%N); IValue TString (VString "qrcode")] in
  heap (Do (answering b) (sample_request false) dest w).2 !! 2%N = heap w !! 2%N.
Proof.
  intros b w dest.
  apply (Do_writes_destinations_only (answering b) (sample_request false) dest w 2%N).
  intros d Hd.
  apply elem_of_cons in Hd as [-> | Hd]; [discriminate |].
  apply elem_of_cons in Hd as [-> | Hd]; [discriminate |].
  by apply elem_of_nil in Hd.
Defined.

(** ** Signed requests *)

Lemma GenerateSign_of_mapping c (p : gmap string string) order :
  range_order (Values_of p) order →
  GenerateSign c (Values_of p) order = Sign_spec p (Key c).
Proof.
  intros Hord. unfold GenerateSign, Sign_spec. cbv zeta.
  do 3 f_equal. f_equal. apply sort_Strings_proper.
  rewrite (parts_of_order _ _ Hord). by rewrite parts_of_Values_of.
Qed.

Lemma Header_Get_Set h key key' value :
  CanonicalMIMEHeaderKey key = CanonicalMIMEHeaderKey key' →
  Header_Get (Header_Set h key value) key' = value.
Proof.
  intros H. unfold Header_Get, Header_Set. by rewrite H, lookup_insert_eq.
Qed.

Lemma Header_Get_Set_ne h key key' value :
  CanonicalMIMEHeaderKey key ≠ CanonicalMIMEHeaderKey key' →
  Header_Get (Header_Set h key value) key' = Header_Get h key'.
Proof.
  intros H. unfold Header_Get, Header_Set. by rewrite lookup_insert_ne.
Qed.

(** The four headers of a signed request read back as they were set,
    whatever headers the request had before, the content type that
    [NewRequest] sets included. *)
Lemma signed_headers c sign req :
  let h := req_Header (httpRequest (signed c sign req)) in
  Header_Get h "Content-Type" = "application/x-www-form-urlencoded"
  ∧ Header_Get h "X-QF-APPCODE" = AppCode c
  ∧ Header_Get h "X-QF-SIGN" = sign
  ∧ Header_Get h "X-QF-SIGNTYPE" = "MD5".
Proof.
  unfold signed, set_Header. simpl. repeat split.
  - by rewrite !Header_Get_Set_ne, Header_Get_Set by (by vm_compute).
  - by rewrite !Header_Get_Set_ne, Header_Get_Set by (by vm_compute).
  - by rewrite Header_Get_Set_ne, Header_Get_Set by (by vm_compute).
  - by rewrite Header_Get_Set.
Qed.

(** ** Queries: the request *)

Lemma Values_Encode_singleton k v :
  Values_Encode (Values_Set ∅ k v) = QueryEscape k +:+ "=" +:+ QueryEscape v.
Proof.
  unfold Values_Encode, Values_Set. rewrite insert_empty, map_to_list_singleton.
  cbv zeta. simpl. by rewrite lookup_singleton_eq.
Qed.

Lemma query_payload_Values outTradeNo :
  Values_Set ∅ "out_trade_no" (Join outTradeNo ",") = Values_of (query_payload outTradeNo).
Proof.
  unfold Values_Set, Values_of, query_payload.
  by rewrite insert_empty, map_fmap_singleton.
Qed.

Lemma Query_steps env c ctx outTradeNo w :
  outTradeNo ≠ [] →
  Query env c ctx outTradeNo w
  = match query_request env c ctx outTradeNo with
    | inl err => (Ok (VNil, Some err), w)
    | inr req =>
        (responses ← new_var (TSlice QueryResponse_type);
         err ← Do env req (query_dest responses);
         v ← take_var (TSlice QueryResponse_type) responses;
         mret (v, err))
          (mkWorld (heap w)
             (trace w ++ [EvSign (Values_of (query_payload outTradeNo))]))
    end.
Proof.
  intros Hne. unfold Query, query_request.
  destruct outTradeNo as [| o os]; [done |]. cbn [length Nat.ltb Nat.leb].
  rewrite Values_Encode_singleton.
  change (QueryEscape "out_trade_no") with "out_trade_no".
  destruct (NewRequest _ _ _ _ _ _) as [err | req0]; [done |].
  rewrite query_payload_Values.
  rewrite (GenerateSign_of_mapping c (query_payload (o :: os)))
    by (unfold range_order; reflexivity).
  reflexivity.
Qed.

(** X16: When the request of a query cannot be made, [Query] returns no
    response and the error, and has done nothing else: no signature, no
    round trip, no write. *)
Theorem Query_request_fails env c ctx outTradeNo w err :
  outTradeNo ≠ [] →
  query_request env c ctx outTradeNo = inl err →
  Query env c ctx outTradeNo w = (Ok (VNil, Some err), w).
Proof. intros Hne Hreq. by rewrite Query_steps, Hreq. Qed.

Lemma Query_request_fails_witness :
  let env := mkEnv (fun _ _ _ _ => inl (ExternalError "net/http: invalid method"))
                   (fun _ => inl (ExternalError "unreachable"))
                   (fun _ _ => inr "request") (fun _ _ => inr "response")
                   (fun _ _ => inl (ExternalError "json: unsupported")) in
  let w := mkWorld ∅ [] in
  Query env (sample_client false) Background ["T1"] w
  = (Ok (VNil, Some (ExternalError "net/http: invalid method")), w).
Proof.
  intros env w.
  apply (Query_request_fails env (sample_client false) Background ["T1"] w).
  - discriminate.
  - reflexivity.
Defined.

(** X17: With at least one order number, [Query] signs once and hands to
    [Do] a request whose body is the form field [out_trade_no] with the
    numbers joined by commas and escaped, and whose headers carry the
    form content type (in place of the JSON one that [NewRequest]
    sets), the application code, the signature of that one-entry
    payload under the client's key and the signature type. *)
Theorem Query_sends_signed_request env c ctx outTradeNo w req :
  outTradeNo ≠ [] →
  query_request env c ctx outTradeNo = inr req →
  Query env c ctx outTradeNo w
  = (responses ← new_var (TSlice QueryResponse_type);
     err ← Do env req (query_dest responses);
     v ← take_var (TSlice QueryResponse_type) responses;
     mret (v, err))
      (mkWorld (heap w) (trace w ++ [EvSign (Values_of (query_payload outTradeNo))]))
  ∧ Header_Get (req_Header (httpRequest req)) "Content-Type"
    = "application/x-www-form-urlencoded"
  ∧ Header_Get (req_Header (httpRequest req)) "X-QF-APPCODE" = AppCode c
  ∧ Header_Get (req_Header (httpRequest req)) "X-QF-SIGN"
    = Sign_spec (query_payload outTradeNo) (Key c)
  ∧ Header_Get (req_Header (httpRequest req)) "X-QF-SIGNTYPE" = "MD5".
Proof.
  intros Hne Hreq. split; [by rewrite Query_steps, Hreq |].
  unfold query_request in Hreq.
  destruct (NewRequest _ _ _ _ _ _) as [e | req0]; [done |].
  injection Hreq as <-. apply signed_headers.
Qed.

Lemma Query_sends_signed_request_witness :
  let env := answering (bytes_lit "{'respcd':'0000','data':[]}") in
  let c := sample_client false in
  let w := mkWorld ∅ [] in
  let req := signed c (Sign_spec (query_payload ["T1"; "T2"]) (Key c))
               (set_Header
                  (mkRequest
                     (mkHttpRequest Background "POST"
                        "https://test-openapi-hk.qfapi.com/trade/v1/query" ∅
                        (Some "out_trade_no=T1%2CT2")) c)
                  "Content-Type" "application/json") in
  Query env c Background ["T1"; "T2"] w
  = (responses ← new_var (TSlice QueryResponse_type);
     err ← Do env req (query_dest responses);
     v ← take_var (TSlice QueryResponse_type) responses;
     mret (v, err))
      (mkWorld (heap w) (trace w ++ [EvSign (Values_of (query_payload ["T1"; "T2"]))]))
  ∧ Header_Get (req_Header (httpRequest req)) "Content-Type"
    = "application/x-www-form-urlencoded"
  ∧ Header_Get (req_Header (httpRequest req)) "X-QF-APPCODE" = AppCode c
  ∧ Header_Get (req_Header (httpRequest req)) "X-QF-SIGN"
    = Sign_spec (query_payload ["T1"; "T2"]) (Key c)
  ∧ Header_Get (req_Header (httpRequest req)) "X-QF-SIGNTYPE" = "MD5".
Proof.
  intros env c w req.
  apply (Query_sends_signed_request env c Background ["T1"; "T2"] w req).
  - discriminate.
  - reflexivity.
Defined.

(** ** Queries: the responses *)

Lemma contents_heap h h' x : (∀ t a, x ≠ Var t a) → contents h x = contents h' x.
Proof. intros Hx. destruct x as [| | | t a]; try done. by destruct (Hx t a). Qed.

Lemma gather_heap h h' x rec rec' acc l :
  (∀ i, Value_Index h x i = Value_Index h' x i) →
  (∀ i e, Value_Index h x i = Ok e → rec e = rec' e) →
  foldl (gather h x rec) acc l = foldl (gather h' x rec') acc l.
Proof.
  intros Hindex Hrec. revert acc. induction l as [| i l IH]; intros acc; [done |].
  cbn [foldl]. rewrite IH. f_equal. unfold gather.
  destruct acc as [out |]; [| done]. cbn [mbind result_bind].
  rewrite <- Hindex.
  destruct (Value_Index h x i) as [e |] eqn:He; [| done]. cbn [mbind result_bind].
  by rewrite (Hrec i e He).
Qed.

(** The walk reads the decoded document, not the memory. *)
Lemma collect_heap h h' keys :
  ∀ x, (∀ t a, x ≠ Var t a) → collect h x keys = collect h' x keys.
Proof.
  induction keys as [| key k IH]; intros x Hx; [done |].
  cbn [collect].
  assert (Hc := contents_heap h h' x Hx).
  destruct (String.eqb key "*").
  - unfold Value_Len. rewrite Hc.
    destruct (match contents h' x with Some (TSlice _, x0) => _ | _ => _ end)
      as [n |]; [| done].
    cbn [mbind result_bind]. apply gather_heap.
    + intros i. unfold Value_Index. by rewrite Hc.
    + intros i e He. apply IH. intros t a ->.
      unfold Value_Index in He. destruct (contents h x) as [[[] v] |]; try done.
      * destruct v; try done. by destruct (bytes_of s !! i).
      * by destruct (slice_elems v !! i).
  - destruct (negb _); [| by apply IH].
    unfold Value_MapIndex. rewrite Hc.
    destruct (contents h' x) as [[[] v] |]; try done.
    cbn [mbind result_bind].
    destruct (entry_lookup (map_entries v) key); by apply IH.
Qed.

Lemma walk_heap data t key h h' : walk data t key h = walk data t key h'.
Proof. unfold walk. cbv zeta. by apply collect_heap. Qed.

(** [Do] on one destination and its path, when the body is read and
    passes the gateway check: the one [arrange], then the close. *)
Lemma Do_one_pair env req b target key w :
  response_body env req = Some b →
  Code (Unmarshal_QFError b) = "0000" →
  ∃ pre, Do env req [target; IValue TString (VString key)] w
         = let '(r, w') := arrange b target key (mkWorld (heap w) (trace w ++ pre)) in
           (match r with Ok _ => Ok None | Panicked p => Panicked p end,
            mkWorld (heap w') (trace w' ++ [EvClose])).
Proof.
  intros Hb Hcode.
  destruct (Do_response_body env req b Hb [target; IValue TString (VString key)] w)
    as [pre ->].
  exists pre.
  rewrite (Do_body_pairs b _ Hcode) by (simpl; lia).
  rewrite pair_loop_strings by reflexivity.
  change (pairs_of _) with [(target, key)].
  cbn [for_each fst snd]. unfold defer, mbind, M_bind.
  by destruct (arrange b target key _) as [[[] | p] w'].
Qed.

Lemma Query_run env req w :
  (responses ← new_var (TSlice QueryResponse_type);
   err ← Do env req (query_dest responses);
   v ← take_var (TSlice QueryResponse_type) responses;
   mret (v, err)) w
  = match Do env req (query_dest (fresh (dom (heap w))))
            (mkWorld (<[fresh (dom (heap w)) := VNil]> (heap w)) (trace w)) with
    | (Ok err, w') =>
        (Ok (load (heap w') (TSlice QueryResponse_type) (fresh (dom (heap w))), err),
         mkWorld (delete (fresh (dom (heap w))) (heap w')) (trace w'))
    | (Panicked p, w') => (Panicked p, w')
    end.
Proof.
  unfold mbind, M_bind, new_var, take_var. cbn [heap trace zero].
  by destruct (Do env req _ _) as [[err | p] w'].
Qed.

(** X18: When the gateway reports an error for a query, [Query] returns no
    response (the nil slice) and the envelope as the error; the memory
    of the caller is as before. *)
Theorem Query_gateway_error env c ctx outTradeNo w req b :
  outTradeNo ≠ [] →
  query_request env c ctx outTradeNo = inr req →
  response_body env req = Some b →
  Code (Unmarshal_QFError b) ≠ "0000" →
  (Query env c ctx outTradeNo w).1
  = Ok (VNil, Some (GatewayError (Unmarshal_QFError b)))
  ∧ heap (Query env c ctx outTradeNo w).2 = heap w.
Proof.
  intros Hne Hreq Hb Hcode. rewrite Query_steps, Hreq, Query_run by done.
  cbn [heap trace].
  pose proof (is_fresh (dom (heap w))) as Hfresh. apply not_elem_of_dom in Hfresh.
  set (a := fresh (dom (heap w))) in *. clearbody a.
  destruct (Do_response_body env req b Hb (query_dest a)
              (mkWorld (<[a := VNil]> (heap w))
                 (trace w ++ [EvSign (Values_of (query_payload outTradeNo))])))
    as [pre ->].
  unfold defer, Do_body.
  destruct (String.eqb_spec (Code (Unmarshal_QFError b)) "0000") as [| _]; [done |].
  cbn. unfold load. rewrite lookup_insert_eq. split; [done |].
  by apply delete_insert_id.
Qed.

Lemma Query_gateway_error_witness :
  let b := bytes_lit "{'respcd':'1145','resperr':'ERR','respmsg':'wait'}" in
  let c := sample_client false in
  let w := mkWorld (<[1%N := VString "sentinel"]> ∅) [] in
  let req := signed c (Sign_spec (query_payload ["T1"]) (Key c))
               (set_Header
                  (mkRequest
                     (mkHttpRequest Background "POST"
                        "https://test-openapi-hk.qfapi.com/trade/v1/query" ∅
                        (Some "out_trade_no=T1")) c)
                  "Content-Type" "application/json") in
  (Query (answering b) c Background ["T1"] w).1
  = Ok (VNil, Some (GatewayError (Unmarshal_QFError b)))
  ∧ heap (Query (answering b) c Background ["T1"] w).2 = heap w.
Proof.
  intros b c w req.
  apply (Query_gateway_error (answering b) c Background ["T1"] w req b).
  - discriminate.
  - reflexivity.
  - reflexivity.
  - vm_compute. discriminate.
Defined.

(** X19: When the body of the response passes the gateway check and the walk
    of [data.*] returns, [Query] returns the records of the array under
    [data] in their order, and the nil error; it returns the nil slice,
    not an empty one, when the array has no element.  The memory of the
    caller is as before. *)
Theorem Query_records env c ctx outTradeNo w req b items :
  outTradeNo ≠ [] →
  query_request env c ctx outTradeNo = inr req →
  response_body env req = Some b →
  Code (Unmarshal_QFError b) = "0000" →
  walk b QueryResponse_type "data.*" ∅ = Ok items →
  (Query env c ctx outTradeNo w).1 = Ok (query_responses items, None)
  ∧ heap (Query env c ctx outTradeNo w).2 = heap w.
Proof.
  intros Hne Hreq Hb Hcode Hwalk. rewrite Query_steps, Hreq, Query_run by done.
  cbn [heap trace].
  pose proof (is_fresh (dom (heap w))) as Hfresh. apply not_elem_of_dom in Hfresh.
  set (a := fresh (dom (heap w))) in *. clearbody a.
  destruct (Do_one_pair env req b (IPtr (TSlice QueryResponse_type) (Some a)) "data.*"
              (mkWorld (<[a := VNil]> (heap w))
                 (trace w ++ [EvSign (Values_of (query_payload outTradeNo))]))
              Hb Hcode) as [pre Hdo].
  unfold query_dest. rewrite Hdo.
  rewrite (arrange_slice b QueryResponse_type a "data.*" _ items)
    by (by rewrite (walk_heap _ _ _ _ ∅)).
  destruct items as [| item items].
  - cbn. unfold load. rewrite lookup_insert_eq. split; [done |].
    by apply delete_insert_id.
  - cbn. unfold load. rewrite !lookup_insert_eq. split; [done |].
    rewrite insert_insert_eq. by apply delete_insert_id.
Qed.

Lemma Query_records_witness :
  let b := bytes_lit "{'respcd':'0000','data':[{'respcd':'0000','out_trade_no':'T1'},{'respcd':'1143','out_trade_no':'T2'}]}" in
  let c := sample_client false in
  let w := mkWorld (<[1%N := VString "sentinel"]> ∅) [] in
  let req := signed c (Sign_spec (query_payload ["T1"; "T2"]) (Key c))
               (set_Header
                  (mkRequest
                     (mkHttpRequest Background "POST"
                        "https://test-openapi-hk.qfapi.com/trade/v1/query" ∅
                        (Some "out_trade_no=T1%2CT2")) c)
                  "Content-Type" "application/json") in
  let items := match walk b QueryResponse_type "data.*" ∅ with
               | Ok items => items
               | Panicked _ => []
               end in
  (Query (answering b) c Background ["T1"; "T2"] w).1 = Ok (query_responses items, None)
  ∧ heap (Query (answering b) c Background ["T1"; "T2"] w).2 = heap w.
Proof.
  intros b c w req items.
  apply (Query_records (answering b) c Background ["T1"; "T2"] w req b items).
  - discriminate.
  - reflexivity.
  - reflexivity.
  - vm_compute. reflexivity.
  - vm_compute. reflexivity.
Defined.

(** In the witness two records come back, the first one paid, the
    second one not. *)
Example paid_records_sample :
  let b := bytes_lit "{'respcd':'0000','data':[{'respcd':'0000','out_trade_no':'T1'},{'respcd':'1143','out_trade_no':'T2'}]}" in
  ∃ r1 r2,
    (Query (answering b) (sample_client false) Background ["T1"; "T2"] (mkWorld ∅ [])).1
    = Ok (VSlice [r1; r2], None)
    ∧ Paid r1 = true ∧ Paid r2 = false.
Proof. vm_compute. eexists _, _. repeat split. Qed.

(** ** Payments *)

Lemma foldl_Values_Set (m : gmap string string) (l : list (string * string)) :
  foldl (fun payload e => Values_Set payload e.1 e.2) (Values_of m) l
  = Values_of (list_to_map (reverse l) ∪ m).
Proof.
  induction l as [| [k v] l IH] using rev_ind.
  - simpl. by rewrite (left_id_L ∅ (∪)).
  - rewrite foldl_app, reverse_snoc, IH. simpl.
    by rewrite <- Values_of_insert, insert_union_l.
Qed.

Lemma payment_fields_Values payType outTradeNo goodsName cents now :
  Values_Set (Values_Set (Values_Set (Values_Set (Values_Set (Values_Set ∅
    "txamt" (Itoa cents)) "txcurrcd" "HKD") "pay_type" payType)
    "out_trade_no" outTradeNo) "goods_name" goodsName) "txdtm" now
  = Values_of (payment_fields payType outTradeNo goodsName cents now).
Proof.
  unfold payment_fields. rewrite !Values_of_insert.
  unfold Values_of. by rewrite fmap_empty.
Qed.

(** The payload of a payment is the six fields overridden by the extra
    ones, whatever order the loop visits the extra ones in. *)
Lemma payment_payload_union payType outTradeNo goodsName cents now
    (extra : gmap string string) extra_order :
  extra_order ≡ₚ map_to_list extra →
  payment_payload payType outTradeNo goodsName cents now extra_order
  = Values_of (extra ∪ payment_fields payType outTradeNo goodsName cents now).
Proof.
  intros Hperm. unfold payment_payload. cbv zeta.
  rewrite payment_fields_Values, foldl_Values_Set. do 2 f_equal.
  rewrite <- (list_to_map_to_list extra). apply list_to_map_proper.
  - rewrite fmap_reverse, reverse_Permutation, Hperm. apply NoDup_fst_map_to_list.
  - by rewrite reverse_Permutation.
Qed.

(** X20: An extra field replaces the field of the same name among the six
    that every payment carries (amount, currency, payment type, order
    number, goods name, time); the other ones are kept, and every extra
    field is in the payload. *)
Theorem payment_extra_overrides payType outTradeNo goodsName cents now
    (extra : gmap string string) extra_order k :
  extra_order ≡ₚ map_to_list extra →
  payment_payload payType outTradeNo goodsName cents now extra_order !! k
  = match extra !! k with
    | Some v => Some [v]
    | None => (fun v => [v])
                <$> payment_fields payType outTradeNo goodsName cents now !! k
    end.
Proof.
  intros Hperm. rewrite (payment_payload_union _ _ _ _ _ extra) by done.
  unfold Values_of. rewrite lookup_fmap, lookup_union.
  destruct (extra !! k) as [v |]; [| by rewrite (left_id_L None union)].
  by destruct (payment_fields _ _ _ _ _ !! k).
Qed.

Lemma payment_extra_overrides_witness :
  let extra : gmap string string := <["txcurrcd" := "USD"]> (<["udid" := "D1"]> ∅) in
  payment_payload "800101" "T1" "Tea" 100 "2024-01-02 03:04:05"
    [("udid", "D1"); ("txcurrcd", "USD")] !! "txcurrcd"
  = match extra !! "txcurrcd" with
    | Some v => Some [v]
    | None => (fun v => [v])
                <$> payment_fields "800101" "T1" "Tea" 100 "2024-01-02 03:04:05"
                    !! "txcurrcd"
    end.
Proof.
  intros extra.
  apply (payment_extra_overrides "800101" "T1" "Tea" 100 "2024-01-02 03:04:05" extra).
  vm_compute. reflexivity.
Defined.

(** X21: [MakePayment] makes no round trip and writes no memory.  When the
    request cannot be made it returns the error and has not signed;
    otherwise it signs once and returns a request whose body is the
    form of the payload (the six fields overridden by the extra ones)
    and whose headers carry the form content type, the application
    code, the signature of that payload under the client's key and the
    signature type: whatever the orders in which the two loops visit
    their maps. *)
Theorem MakePayment_signed_request env c ctx payType outTradeNo goodsName cents now
    (extra : gmap string string) extra_order sign_order w :
  extra_order ≡ₚ map_to_list extra →
  range_order (payment_payload payType outTradeNo goodsName cents now extra_order)
    sign_order →
  let p := extra ∪ payment_fields payType outTradeNo goodsName cents now in
  MakePayment env c ctx payType outTradeNo goodsName cents now extra_order sign_order w
  = match payment_request env c ctx p with
    | inl err => (Ok (inl err), w)
    | inr req => (Ok (inr req), mkWorld (heap w) (trace w ++ [EvSign (Values_of p)]))
    end
  ∧ (∀ req, payment_request env c ctx p = inr req →
       Header_Get (req_Header (httpRequest req)) "Content-Type"
       = "application/x-www-form-urlencoded"
       ∧ Header_Get (req_Header (httpRequest req)) "X-QF-APPCODE" = AppCode c
       ∧ Header_Get (req_Header (httpRequest req)) "X-QF-SIGN" = Sign_spec p (Key c)
       ∧ Header_Get (req_Header (httpRequest req)) "X-QF-SIGNTYPE" = "MD5").
Proof.
  intros Hperm Hsign p. split.
  - unfold MakePayment, payment_request. cbv zeta.
    rewrite (payment_payload_union _ _ _ _ _ extra) in * by done. fold p in Hsign |- *.
    destruct (NewRequest _ _ _ _ _ _) as [err | req0]; [done |].
    by rewrite (GenerateSign_of_mapping c p sign_order Hsign).
  - intros req Hreq. unfold payment_request in Hreq.
    destruct (NewRequest _ _ _ _ _ _) as [err | req0]; [done |].
    injection Hreq as <-. apply signed_headers.
Qed.

Lemma MakePayment_signed_request_witness :
  let env := answering "{}" in
  let c := sample_client false in
  let extra : gmap string string := <["txcurrcd" := "USD"]> (<["udid" := "D1"]> ∅) in
  let extra_order := [("udid", "D1"); ("txcurrcd", "USD")] in
  let now := "2024-01-02 03:04:05" in
  let sign_order :=
    reverse (map_to_list (payment_payload "800101" "T1" "Tea" 100 now extra_order)).*1 in
  let w := mkWorld ∅ [] in
  let p := extra ∪ payment_fields "800101" "T1" "Tea" 100 now in
  MakePayment env c Background "800101" "T1" "Tea" 100 now extra_order sign_order w
  = match payment_request env c Background p with
    | inl err => (Ok (inl err), w)
    | inr req => (Ok (inr req), mkWorld (heap w) (trace w ++ [EvSign (Values_of p)]))
    end
  ∧ (∀ req, payment_request env c Background p = inr req →
       Header_Get (req_Header (httpRequest req)) "Content-Type"
       = "application/x-www-form-urlencoded"
       ∧ Header_Get (req_Header (httpRequest req)) "X-QF-APPCODE" = AppCode c
       ∧ Header_Get (req_Header (httpRequest req)) "X-QF-SIGN" = Sign_spec p (Key c)
       ∧ Header_Get (req_Header (httpRequest req)) "X-QF-SIGNTYPE" = "MD5").
Proof.
  intros env c extra extra_order now sign_order w.
  apply (MakePayment_signed_request env c Background "800101" "T1" "Tea" 100 now
           extra extra_order sign_order w).
  - vm_compute. reflexivity.
  - unfold range_order, sign_order. apply reverse_Permutation.
Defined.

(** The payment of the witness: the form sent and the currency signed
    are those of the extra field. *)
Example MakePayment_sample :
  let extra_order := [("udid", "D1"); ("txcurrcd", "USD")] in
  let payload := payment_payload "800101" "T1" "Tea" 100 "2024-01-02 03:04:05"
                   extra_order in
  Values_Encode payload
  = "goods_name=Tea&out_trade_no=T1&pay_type=800101&txamt=100&txcurrcd=USD&txdtm=2024-01-02+03%3A04%3A05&udid=D1".
Proof. vm_compute. reflexivity. Qed.

(** ** The walk over a wildcard *)

Lemma gather_each h et v k rest :
  ∀ pre acc,
    slice_elems v = pre ++ rest →
    foldl (gather h (Val (TSlice et) v) (fun e => collect h e k))
      (Ok acc) (seq (length pre) (length rest))
    = (items ← each (fun e => collect h (Val et e) k) rest; Ok (acc ++ items)).
Proof.
  induction rest as [| e rest IH]; intros pre acc Hsplit.
  - simpl. by rewrite app_nil_r.
  - cbn [length seq foldl each].
    assert (Hindex : Value_Index h (Val (TSlice et) v) (length pre) = Ok (Val et e)).
    { unfold Value_Index. cbn [contents]. rewrite Hsplit.
      by rewrite lookup_app_r, Nat.sub_diag by lia. }
    unfold gather at 2. cbn [mbind result_bind]. rewrite Hindex.
    cbn [mbind result_bind].
    destruct (collect h (Val et e) k) as [items | p]; cbn [mbind result_bind].
    + replace (S (length pre)) with (length (pre ++ [e]))
        by (rewrite length_app; simpl; lia).
      rewrite (IH (pre ++ [e]) (acc ++ items)) by (by rewrite <- app_assoc).
      destruct (each _ rest) as [more |]; cbn [mbind result_bind]; [| done].
      by rewrite app_assoc.
    + apply gather_Panicked.
Qed.

(** X22: A wildcard walks the elements of the slice in their order, each
    with the rest of the path, and puts their items one after the
    other; the walk panics with the first element whose walk panics,
    and never on an index. *)
Theorem collect_wildcard h et v k :
  collect h (Val (TSlice et) v) ("*" :: k)
  = each (fun e => collect h (Val et e) k) (slice_elems v).
Proof.
  cbn [collect]. change (String.eqb "*" "*") with true. cbn iota.
  unfold Value_Len. cbn [contents mbind result_bind].
  pose proof (gather_each h et v k (slice_elems v) [] [] eq_refl) as H.
  cbn [length] in H. rewrite H.
  by destruct (each _ _).
Qed.

(** ** Pairs of a variable and a name *)

Lemma walk_one_name data t key h :
  one_name key = true → ∃ item, walk data t key h = Ok [item].
Proof.
  unfold one_name. intros H.
  apply andb_true_iff in H as [H Hempty]. apply andb_true_iff in H as [Hdot Hstar].
  apply negb_true_iff in Hstar, Hempty.
  unfold walk. rewrite (Split_no_dot _ Hdot). cbv zeta. unfold shape.
  cbn [foldr collect]. rewrite Hstar, Hempty. cbn [negb].
  unfold Value_MapIndex. cbn [contents mbind result_bind].
  destruct (entry_lookup _ key); eauto.
Qed.

Lemma one_name_arrange_returns data t a key w :
  one_name key = true → (arrange data (IPtr t (Some a)) key w).1 = Ok tt.
Proof.
  intros Hkey.
  destruct (walk_one_name data (base_type t) key (heap w) Hkey) as [item Hwalk].
  destruct t as [| | | et | et | fs]; cbn [base_type] in Hwalk;
    try (by rewrite (arrange_slice _ _ _ _ _ _ Hwalk));
    (erewrite arrange_scalar; [done | discriminate | exact Hwalk]).
Qed.

Lemma named_pairs_lookup n :
  ∀ dest, named_pairs dest = true → n < length dest / 2 →
          ∃ t a key, dest !! (2 * n) = Some (IPtr t (Some a))
                     ∧ dest !! (2 * n + 1) = Some (IValue TString (VString key))
                     ∧ one_name key = true.
Proof.
  induction n as [| n IH]; intros dest Hdest Hn.
  - destruct dest as [| target [| path rest]]; [simpl in Hn; lia | |].
    { by destruct target as [| ? ? | ? [|]]. }
    destruct target as [| ? ? | t [a |]]; try done.
    destruct path as [| [] [] | ? ?]; try done.
    cbn [named_pairs] in Hdest. apply andb_true_iff in Hdest as [Hkey _].
    by exists t, a, s.
  - destruct dest as [| target [| path rest]]; [simpl in Hn; lia | |].
    { by destruct target as [| ? ? | ? [|]]. }
    destruct target as [| ? ? | t [a |]]; try done.
    destruct path as [| [] [] | ? ?]; try done.
    cbn [named_pairs] in Hdest. apply andb_true_iff in Hdest as [_ Hrest].
    cbn [length] in Hn.
    replace (S (S (length rest)) / 2) with (S (length rest / 2)) in Hn
      by (change (S (S (length rest))) with (1 * 2 + length rest);
          rewrite Nat.div_add_l by lia; lia).
    destruct (IH rest Hrest) as (t' & a' & key & H1 & H2 & H3); [lia |].
    exists t', a', key.
    replace (2 * S n) with (S (S (2 * n))) by lia.
    replace (S (S (2 * n)) + 1) with (S (S (2 * n + 1))) by lia.
    done.
Qed.

Lemma for_each_returns {A} (l : list A) (body : A → M unit) :
  (∀ x, x ∈ l → ∀ w, (body x w).1 = Ok tt) → ∀ w, (for_each l body w).1 = Ok tt.
Proof.
  induction l as [| x l IH]; intros H w; [done |].
  cbn [for_each]. unfold mbind, M_bind.
  pose proof (H x (list_elem_of_here _ _) w) as Hx.
  destruct (body x w) as [[[] | p] w']; [| done].
  apply IH. intros y Hy. apply H. by apply list_elem_of_further.
Qed.

(** X23: The use that the comment of [Do] describes never panics: with more
    than one destination, each pair a non-nil pointer to a variable of
    any type followed by a key that is one name (no dot, not the
    wildcard, not empty), [Do] returns nil on every body that passes
    the gateway check, whatever else the body holds. *)
Theorem Do_named_pairs env req b dest w :
  response_body env req = Some b →
  Code (Unmarshal_QFError b) = "0000" →
  1 < length dest →
  named_pairs dest = true →
  (Do env req dest w).1 = Ok None.
Proof.
  intros Hb Hcode Hlen Hdest.
  destruct (Do_response_body env req b Hb dest w) as [pre ->].
  unfold defer. rewrite (Do_body_pairs b dest Hcode Hlen).
  unfold mbind, M_bind.
  set (w' := mkWorld (heap w) (trace w ++ pre)).
  assert (Hloop : (pair_loop b dest w').1 = Ok tt).
  { apply for_each_returns. intros n Hn w''.
    apply elem_of_seq in Hn as [_ Hn]. simpl in Hn.
    destruct (named_pairs_lookup n dest Hdest Hn) as (t & a & key & H1 & H2 & Hkey).
    unfold index. rewrite H1, H2. cbn [assert_string string_of].
    unfold mbind, M_bind, mret, M_ret.
    by apply one_name_arrange_returns. }
  destruct (pair_loop b dest w') as [[[] | p] w'']; done.
Qed.

Lemma Do_named_pairs_witness :
  let b := bytes_lit "{'respcd':'0000','respmsg':7}" in
  let dest := [IPtr TString (Some 1%N); IValue TString (VString "respcd");
               IPtr (TSlice TString) (Some 2%N); IValue TString (VString "respmsg");
               IPtr TBool (Some 3%N); IValue TString (VString "missing")] in
  (Do (answering b) (sample_request false) dest (mkWorld ∅ [])).1 = Ok None.
Proof.
  intros b dest.
  apply (Do_named_pairs (answering b) (sample_request false) b dest (mkWorld ∅ [])).
  - reflexivity.
  - vm_compute. reflexivity.
  - simpl. lia.
  - vm_compute. reflexivity.
Defined.
